(** * Chord playback widget: note derivation, playback sequencer, progression store

    A shallow embedding of the event handlers of [ChordSearch.tsx] (both
    revisions of the component that the repository holds) and of the playback
    effect of [Piano.tsx], followed by the properties the written
    specification states about them.

    Conventions of the embedding.
    - React state is a record; an event handler reads the state of the render
      it was created in and its [setX] calls are applied together afterwards,
      so a handler is a function from the state it saw to the next state.
    - The audio engine is write-only: a handler's sound is the list of
      [triggerAttackRelease] calls it makes once [Tone.start()] has resolved.
    - [setTimeout] chains run on a logical clock in milliseconds, started when
      [Tone.start()] resolves.
    - Decibels and onset offsets are rationals: the source computes them in
      binary floating point, the embedding in exact arithmetic. *)

From Stdlib Require Import QArith Lqa Ascii String DecimalString.
From stdpp Require Import base list strings gmap sorting.

Local Open Scope char_scope.
Local Open Scope string_scope.
Local Open Scope list_scope.
Local Open Scope nat_scope.

(** ** Data model *)

(** ["chord" | "arpeggio"] *)
Inductive PlayStyle := chord | arpeggio.

(** ["short" | "medium" | "long"] *)
Inductive Duration := short | medium | long.

(** ["low" | "medium" | "high"]; [medium] is taken by [Duration]. *)
Inductive Velocity := low | mediumV | high.

(** The part of [Chord.get(name)] the component reads. *)
Record ChordInfo := { tonic : option string; chordNotes : list string }.

(** The collaborators the component calls but does not define: the tonal
    resolver and the host's random number generator.  [Math_random k] is the
    value returned by the [k]-th call of [Math.random()]. *)
Class Host := {
  Chord_get : string → ChordInfo;
  Note_pitchClass : string → string;
  Math_random : nat → Q;
}.

(** State of the [ChordSearch] component.  [useRootAsBass] and [inversion]
    exist in the second revision only; [query] only filters suggestions and is
    left out.  [C] is what a cell of the [notes] array holds: a note name in
    the first revision, a note name or [undefined] in the second, whose
    inversion reads [fullNotes[0]] of an array that may be empty. *)
Record StateOf (C : Type) := mkState {
  selectedChord : option string;
  notes : list C;
  bassNote : option string;
  useRootAsBass : bool;
  isMuted : bool;
  playStyle : PlayStyle;
  duration : Duration;
  velocity : Velocity;
  selectedMelody : list string;
  inversion : bool;
  harmonicsMode : bool;
  loop : bool;
  eightBarLoop : bool;
  progression : list string;
}.

Arguments mkState {C}.
Arguments selectedChord {C}.
Arguments notes {C}.
Arguments bassNote {C}.
Arguments useRootAsBass {C}.
Arguments isMuted {C}.
Arguments playStyle {C}.
Arguments duration {C}.
Arguments velocity {C}.
Arguments selectedMelody {C}.
Arguments inversion {C}.
Arguments harmonicsMode {C}.
Arguments loop {C}.
Arguments eightBarLoop {C}.
Arguments progression {C}.

Abbreviation State := (StateOf string).

Definition setSelectedChord {C} (v : option string) (s : StateOf C)
    : StateOf C :=
  mkState v (notes s) (bassNote s) (useRootAsBass s) (isMuted s) (playStyle s)
    (duration s) (velocity s) (selectedMelody s) (inversion s)
    (harmonicsMode s) (loop s) (eightBarLoop s) (progression s).

Definition setNotes {C} (v : list C) (s : StateOf C) : StateOf C :=
  mkState (selectedChord s) v (bassNote s) (useRootAsBass s) (isMuted s)
    (playStyle s) (duration s) (velocity s) (selectedMelody s) (inversion s)
    (harmonicsMode s) (loop s) (eightBarLoop s) (progression s).

Definition setBassNote {C} (v : option string) (s : StateOf C) : StateOf C :=
  mkState (selectedChord s) (notes s) v (useRootAsBass s) (isMuted s)
    (playStyle s) (duration s) (velocity s) (selectedMelody s) (inversion s)
    (harmonicsMode s) (loop s) (eightBarLoop s) (progression s).

Definition setSelectedMelody {C} (v : list string) (s : StateOf C)
    : StateOf C :=
  mkState (selectedChord s) (notes s) (bassNote s) (useRootAsBass s)
    (isMuted s) (playStyle s) (duration s) (velocity s) v (inversion s)
    (harmonicsMode s) (loop s) (eightBarLoop s) (progression s).

Definition setProgression {C} (v : list string) (s : StateOf C) : StateOf C :=
  mkState (selectedChord s) (notes s) (bassNote s) (useRootAsBass s)
    (isMuted s) (playStyle s) (duration s) (velocity s) (selectedMelody s)
    (inversion s) (harmonicsMode s) (loop s) (eightBarLoop s) v.

(** The state of [useState]'s initial values. *)
Definition initialState : State :=
  mkState None [] None true false chord medium mediumV [] false false false
    false [].

(** First argument of [triggerAttackRelease]: one element of a note array
    or a whole array. *)
Inductive VoicingOf (C : Type) := Single (note : C) | Together (pitches : list C).

Arguments Single {C}.
Arguments Together {C}.

Abbreviation Voicing := (VoicingOf string).

(** One [synth.triggerAttackRelease(voicing, noteLength, time)] call.
    [onset] is the number after the [+] of the third argument, in seconds,
    [None] when the call passes two arguments; [volume] is
    [synth.volume.value] of the synth the call is made on, [None] when the
    code never assigns it. *)
Record TriggerOf (C : Type) := mkTrigger {
  voicing : VoicingOf C;
  noteLength : string;
  onset : option Q;
  volume : option Q;
}.

Arguments mkTrigger {C}.
Arguments voicing {C}.
Arguments noteLength {C}.
Arguments onset {C}.
Arguments volume {C}.

Abbreviation Trigger := (TriggerOf string).

(** ** JavaScript helpers *)

(** Truthiness of a [string | null]: [null] and the empty string are falsy. *)
Definition truthy (v : option string) : bool :=
  match v with
  | Some s => negb (String.eqb s "")
  | None => false
  end.

(** [String(n)] for a non-negative integer. *)
Definition Number_toString (n : nat) : string :=
  NilEmpty.string_of_uint (Nat.to_uint n).

(** [bassNote ? [bassNote] : []] *)
Definition spreadIf (v : option string) : list string :=
  match v with
  | Some s => if truthy v then [s] else []
  | None => []
  end.

Definition Qnat (n : nat) : Q := inject_Z (Z.of_nat n).

(** ** Random numbers drawn so far

    A computation that calls [Math.random()] threads the number of calls made
    so far. *)
Definition Rng (A : Type) : Type := nat → A * nat.

#[global] Instance Rng_ret : MRet Rng := λ A a k, (a, k).

#[global] Instance Rng_bind : MBind Rng :=
  λ A B f m k, let '(a, k') := m k in f a k'.

Section ChordSearch.
Context `{Host}.

Definition velocityMap (v : Velocity) : Q :=
  match v with low => -24 | mediumV => -12 | high => 0 end.

Definition timeMap (d : Duration) : string :=
  match d with short => "4n" | medium => "2n" | long => "1n" end.

(** [getHumanizedVelocity]: [base + (Math.random() - 0.5) * 4]. *)
Definition getHumanizedVelocity {C} (s : StateOf C) : Rng Q :=
  λ k, let base := velocityMap (velocity s) in
       let offset := ((Math_random k - (1 # 2)) * 4)%Q in
       ((base + offset)%Q, S k).

(** The array [playChord] hands to the synth. *)
Definition allNotes (s : State) (customNotes : list string) : list string :=
  spreadIf (bassNote s) ++ customNotes ++ selectedMelody s.

(** [playChord(customNotes)]; the default argument is [playChord s (notes s)]. *)
Definition playChord (s : State) (customNotes : list string)
    : Rng (list Trigger) :=
  if isMuted s || bool_decide (length customNotes = 0) then mret []
  else
    v ← getHumanizedVelocity s ;
    mret match playStyle s with
        | chord =>
            [mkTrigger (Together (allNotes s customNotes))
               (timeMap (duration s)) None (Some v)]
        | arpeggio =>
            imap (λ i note,
                    mkTrigger (Single note) (timeMap (duration s))
                      (Some (Qnat i * (3 # 10))%Q) (Some v))
              (allNotes s customNotes)
        end.

(** The chord pitches [handleSelect] computes (first revision). *)
Definition fullNotes (s : State) (chordInfo : ChordInfo) : list string :=
  let baseOctave := 4 in
  let fullNotes :=
    (λ n, Note_pitchClass n +:+ Number_toString baseOctave)
      <$> chordNotes chordInfo in
  if harmonicsMode s then
    imap (λ i note, Note_pitchClass note +:+ Number_toString (4 + i / 2)%nat)
      fullNotes
  else fullNotes.

(** [handleSelect(chordName)], first revision.  The nested [playChord] call
    still sees the bass note and the melody of the state the handler was
    created in. *)
Definition handleSelect (chordName : string) (s : State)
    : Rng (State * list Trigger) :=
  let chordInfo := Chord_get chordName in
  let fullNotes := fullNotes s chordInfo in
  let root := tonic chordInfo in
  let s' :=
    setSelectedMelody []
      (setNotes fullNotes
         (setBassNote
            (if truthy root then Some (default "" root +:+ "2") else None)
            (setSelectedChord (Some chordName) s))) in
  out ← playChord s fullNotes ;
  mret (s', out).

(** [playMelodyPreview]: a plain [Tone.Synth] whose volume is never set. *)
Definition playMelodyPreview (s : State) : list Trigger :=
  if bool_decide (length (selectedMelody s) = 0) || isMuted s then []
  else imap (λ i note,
               mkTrigger (Single note) "8n" (Some (Qnat i * (3 # 10))%Q) None)
         (selectedMelody s).

(** [addToProgression] *)
Definition addToProgression (s : State) : State :=
  match selectedChord s with
  | Some c =>
      if truthy (selectedChord s) then setProgression (progression s ++ [c]) s
      else s
  | None => s
  end.

(** [clearProgression], and the inline handler of the Clear button. *)
Definition clearProgression (s : State) : State := setProgression [] s.

(** *** Progression walk *)

(** What one [playProgression] call closes over and mutates: the index [i]
    and the volume given to its synth. *)
Record Walk := mkWalk { walkIndex : nat; walkVolume : Q }.

(** One run of the [playNext] callback: the triggers it makes, the closure
    afterwards, and the delay of the [setTimeout] it arms ([None]: none). *)
Definition playNext (s : State) (w : Walk)
    : list Trigger * Walk * option Z :=
  if bool_decide (length (progression s) ≤ walkIndex w)%nat then
    if eightBarLoop s then ([], mkWalk 0 (walkVolume w), Some 1500%Z)
    else ([], w, None)
  else
    let chordInfo :=
      Chord_get (default "" (progression s !! walkIndex w)) in
    let fullNotes := (λ n, Note_pitchClass n +:+ "4") <$> chordNotes chordInfo in
    ([mkTrigger (Together fullNotes) (timeMap (duration s)) None
        (Some (walkVolume w))],
     mkWalk (S (walkIndex w)) (walkVolume w), Some 1500%Z).

(** The timer queue of one walk: runs the callback due at [now] and then the
    ones it arms, at most [fuel] callbacks in all.  Yields the triggers with
    the time of their callback and the timer still pending, if any. *)
Fixpoint timers (s : State) (fuel : nat) (now : Z) (w : Walk)
    : list (Z * Trigger) * option (Z * Walk) :=
  match fuel with
  | 0 => ([], Some (now, w))
  | S fuel' =>
      let '(out, w', armed) := playNext s w in
      match armed with
      | None => (pair now <$> out, None)
      | Some delay =>
          let '(log, pending) := timers s fuel' (now + delay)%Z w' in
          ((pair now <$> out) ++ log, pending)
      end
  end.

(** [playProgression], observed for [fuel] timer callbacks. *)
Definition playProgression (s : State) (fuel : nat)
    : Rng (list (Z * Trigger) * option (Z * Walk)) :=
  if bool_decide (length (progression s) = 0) then mret ([], None)
  else
    v ← getHumanizedVelocity s ;
    mret (timers s fuel 0 (mkWalk 0 v)).

(** The inline [onSelect] handler given to [ChordProgressionSection]. *)
Definition onSelect (chords : list string) (s : State) : State :=
  setSelectedMelody []
    (setBassNote None
       (setNotes [] (setSelectedChord None (setProgression chords s)))).

End ChordSearch.

(** ** The second revision of [ChordSearch]

    It adds the [inversion] and [useRootAsBass] toggles and a drop-down of
    progression templates.  Its inversion reads [fullNotes[0]], which is
    [undefined] on an empty array, so its note arrays are arrays of cells. *)
Module Rev2.

(** A cell of a note array: a note name, or [undefined]. *)
Definition Cell : Type := option string.

Section ChordSearch.
Context `{Host}.

(** What [Note.pitchClass] answers when it is handed [undefined] instead of
    a note name; the resolver library decides it. *)
Variable pitchClassOfUndefined : string.

Definition pitchClass (note : Cell) : string :=
  match note with
  | Some n => Note_pitchClass n
  | None => pitchClassOfUndefined
  end.

(** [[...fullNotes.slice(1), fullNotes[0]]] *)
Definition invert (fullNotes : list Cell) : list Cell :=
  drop 1 fullNotes ++ [default None (fullNotes !! 0)].

(** The chord pitches the second [handleSelect] computes. *)
Definition fullNotes (s : StateOf Cell) (chordInfo : ChordInfo) : list Cell :=
  let baseOctave := 4 in
  let fullNotes : list Cell :=
    (λ n, Some (Note_pitchClass n +:+ Number_toString baseOctave))
      <$> chordNotes chordInfo in
  let fullNotes := if inversion s then invert fullNotes else fullNotes in
  if harmonicsMode s then
    imap (λ i note, Some (pitchClass note +:+ Number_toString (4 + i / 2)))
      fullNotes
  else fullNotes.

(** The array the second [playChord] hands to the synth. *)
Definition allNotes (s : StateOf Cell) (customNotes : list Cell) : list Cell :=
  (Some <$> spreadIf (bassNote s)) ++ customNotes
    ++ (Some <$> selectedMelody s).

(** [playChord(customNotes)] of the second revision, the same text as the
    first revision's. *)
Definition playChord (s : StateOf Cell) (customNotes : list Cell)
    : Rng (list (TriggerOf Cell)) :=
  if isMuted s || bool_decide (length customNotes = 0) then mret []
  else
    v ← getHumanizedVelocity s ;
    mret match playStyle s with
        | chord =>
            [mkTrigger (Together (allNotes s customNotes))
               (timeMap (duration s)) None (Some v)]
        | arpeggio =>
            imap (λ i note,
                    mkTrigger (Single note) (timeMap (duration s))
                      (Some (Qnat i * (3 # 10))%Q) (Some v))
              (allNotes s customNotes)
        end.

(** [handleSelect(chordName)], second revision. *)
Definition handleSelect (chordName : string) (s : StateOf Cell)
    : Rng (StateOf Cell * list (TriggerOf Cell)) :=
  let chordInfo := Chord_get chordName in
  let fullNotes := fullNotes s chordInfo in
  let root := tonic chordInfo in
  let s' :=
    setSelectedMelody []
      (setNotes fullNotes
         (setBassNote
            (if useRootAsBass s && truthy root
             then Some (default "" root +:+ "2") else None)
            (setSelectedChord (Some chordName) s))) in
  out ← playChord s fullNotes ;
  mret (s', out).

End ChordSearch.

(** The own properties of the [progressionTemplates] object. *)
Definition progressionTemplates : gmap string (list string) :=
  list_to_map
    [ ("I–V–vi–IV", ["Cmaj"; "Gmaj"; "Am"; "Fmaj"]);
      ("ii–V–I", ["Dm7"; "G7"; "Cmaj7"]);
      ("12-Bar Blues", ["C7"; "F7"; "C7"; "G7"]) ].

Section Templates.

(** The names under which [Object.prototype] holds a truthy value
    (["constructor"], ["toString"], ...): the object literal inherits
    them, so [progressionTemplates[selected]] finds them too. *)
Variable inherited : string → bool.

(** The [onChange] handler of the template drop-down; [selected] is
    [e.target.value].  For a name that is only inherited the handler stores
    the inherited value, which is no list of chord names, as the
    progression: that state is outside [StateOf], and the result is
    [None]. *)
Definition onTemplateChange {C} (selected : string) (s : StateOf C)
    : option (StateOf C) :=
  if truthy (Some selected) then
    match progressionTemplates !! selected with
    | Some chords =>
        Some (setSelectedMelody []
                (setBassNote None
                   (setNotes []
                      (setSelectedChord None (setProgression chords s)))))
    | None => if inherited selected then None else Some s
    end
  else Some s.

End Templates.

End Rev2.

(** ** [ChordProgressionSection] *)
Module ChordProgressionSection.

Record ProgressionTemplate := {
  name : string;
  chords : list string;
  genre : string;
  mood : string;
  description : string;
}.

Definition templates : list ProgressionTemplate :=
  [ {| name := "Romantic Trap Ballad";
       chords := ["Dm7"; "G7"; "Cmaj7"; "Fmaj7"];
       genre := "Trap/R&B"; mood := "Romantic";
       description :=
         "Smooth emotional progressions with jazzy overtones for vocals or melodies." |};
    {| name := "Lofi Chill Set";
       chords := ["Am7"; "Em7"; "Fmaj7"; "G6"];
       genre := "Lofi"; mood := "Relaxed";
       description :=
         "Great for ambient, cozy beats. Jazzy and relaxed tone." |};
    {| name := "Bedroom Pop Vibe";
       chords := ["Cmaj7"; "Am"; "Fmaj7"; "G"];
       genre := "Pop"; mood := "Intimate";
       description :=
         "Sweet and vibrant feel good chords for vocal tracks and hooks." |};
    {| name := "Boom Bap Groove";
       chords := ["Cm7"; "Abmaj7"; "Bb7"; "G7"];
       genre := "Boom Bap"; mood := "Classic / Underground";
       description :=
         "Old-school vibe with a jazzy swing – perfect for laid-back beats." |} ].

(** Clicking the card of [template]: [onSelect(template.chords)]. *)
Definition onClick (template : ProgressionTemplate)
    (onSelect : list string → State → State) : State → State :=
  onSelect (chords template).

End ChordProgressionSection.

(** ** The [Piano] component *)
Module Piano.

Record PianoProps := mkProps {
  notes : list string;
  bassNote : option string;
  melodyNotes : list string;
  muted : bool;
  playStyle : PlayStyle;
  duration : Duration;
}.

Definition timeMap (d : Duration) : string :=
  match d with short => "4n" | medium => "2n" | long => "1n" end.

Definition combined (p : PianoProps) : list string :=
  spreadIf (bassNote p) ++ notes p ++ melodyNotes p.

(** What follows the two guards in both revisions of the playback effect;
    [synth] tells whether [synthRef.current] is set when [Tone.start()]
    resolves. *)
Definition sound (p : PianoProps) (synth : bool) : list Trigger :=
  if negb synth then []
  else match playStyle p with
       | chord =>
           [mkTrigger (Together (combined p)) (timeMap (duration p)) None None]
       | arpeggio =>
           imap (λ i note,
                   mkTrigger (Single note) (timeMap (duration p))
                     (Some (Qnat i * (1 # 4))%Q) None)
             (combined p)
       end.

(** The playback effect of [Piano.tsx]. *)
Definition playbackEffect (p : PianoProps) (synth : bool) : list Trigger :=
  if muted p || bool_decide (length (combined p) = 0) then []
  else sound p synth.

(** The playback effect of the other revision of the component that the
    repository holds. *)
Definition playbackEffect_old (p : PianoProps) (synth : bool) : list Trigger :=
  if bool_decide (length (notes p) = 0)
       && bool_decide (length (melodyNotes p) = 0)
     || muted p
  then []
  else sound p synth.

(** [handleKeyClick(note)] *)
Definition handleKeyClick (p : PianoProps) (synth : bool) (note : string)
    : list Trigger :=
  if muted p then []
  else if negb synth then []
  else [mkTrigger (Single note) "8n" None None].

End Piano.

(** The props [ChordSearch] renders its [Piano] with. *)
Definition pianoProps (s : State) : Piano.PianoProps :=
  Piano.mkProps
    (notes s ++ spreadIf (bassNote s) ++ selectedMelody s)
    (bassNote s) (selectedMelody s) (isMuted s) (playStyle s) (duration s).

(** ** A sample host

    A table-backed resolver for the chords of the shipped templates, a note
    parser for letter, accidentals and octave, and a fixed sequence of random
    numbers.  It instantiates the collaborators for the closed examples
    below; the general theorems hold for every host. *)
Module SampleHost.

Definition NoChord : ChordInfo := {| tonic := None; chordNotes := [] |}.

Definition resolve (name : string) : ChordInfo :=
  let table : gmap string ChordInfo :=
    list_to_map
      [ ("Cmaj7", {| tonic := Some "C"; chordNotes := ["C"; "E"; "G"; "B"] |});
        ("G7", {| tonic := Some "G"; chordNotes := ["G"; "B"; "D"; "F"] |});
        ("Fmaj7", {| tonic := Some "F"; chordNotes := ["F"; "A"; "C"; "E"] |});
        ("Dm7", {| tonic := Some "D"; chordNotes := ["D"; "F"; "A"; "C"] |});
        ("Am", {| tonic := Some "A"; chordNotes := ["A"; "C"; "E"] |});
        ("Bb7", {| tonic := Some "Bb"; chordNotes := ["Bb"; "D"; "F"; "Ab"] |}) ]
  in default NoChord (table !! name).

Definition isLetter (c : ascii) : bool :=
  let n := nat_of_ascii c in
  (65 <=? n) && (n <=? 71) || (97 <=? n) && (n <=? 103).

Definition toUpperCase (c : ascii) : ascii :=
  let n := nat_of_ascii c in
  if 97 <=? n then ascii_of_nat (n - 32) else c.

Definition isDigit (c : ascii) : bool :=
  let n := nat_of_ascii c in (48 <=? n) && (n <=? 57).

(** The longest prefix made of [c], and what follows it. *)
Fixpoint run (c : ascii) (s : string) : string * string :=
  match s with
  | String d rest =>
      if Ascii.eqb c d
      then let '(same, after) := run c rest in (String d same, after)
      else ("", s)
  | EmptyString => ("", "")
  end.

Definition accidentals (s : string) : string * string :=
  match s with
  | String "#" _ => run "#" s
  | String "b" _ => run "b" s
  | _ => ("", s)
  end.

Fixpoint digits (s : string) : bool :=
  match s with
  | String d rest => isDigit d && digits rest
  | EmptyString => true
  end.

Definition octave (s : string) : bool :=
  match s with
  | String "-" rest => digits rest
  | _ => digits s
  end.

Definition pitchClass (name : string) : string :=
  match name with
  | String c rest =>
      if isLetter c then
        let '(acc, rest) := accidentals rest in
        if octave rest then String (toUpperCase c) acc else ""
      else ""
  | EmptyString => ""
  end.

(** 0, 1/10, 2/10, ... 9/10, 0, ... *)
Definition random (k : nat) : Q := Z.of_nat (k mod 10) # 10.

#[export] Instance host : Host :=
  {| Chord_get := resolve;
     Note_pitchClass := pitchClass;
     Math_random := random |}.

End SampleHost.

(** ** The rest of the component *)

Definition allRoots : list string :=
  ["C"; "C#"; "D"; "D#"; "E"; "F"; "F#"; "G"; "G#"; "A"; "A#"; "B"].

(** The suggestion list.  [chordTypes] is the list of first aliases the
    chord-type library reports and [toLowerCase] the host's
    [String.prototype.toLowerCase]; the component defines neither. *)
Section Suggestions.
Variable chordTypes : list string.
Variable toLowerCase : string → string.

(** [allRoots.flatMap((root) => chordTypes.map((type) => root + type))] *)
Definition candidates : list string :=
  allRoots ≫= λ root, (λ type, root +:+ type) <$> chordTypes.

(** [chordName.toLowerCase().startsWith(query.toLowerCase())] *)
Definition matches (query chordName : string) : bool :=
  String.prefix (toLowerCase query) (toLowerCase chordName).

Definition filteredSuggestions (query : string) : list string :=
  take 10 (filter (λ chordName, matches query chordName) candidates).

End Suggestions.

(** [toggleMelodyNote(note)] of the second revision; the melody buttons of
    the first revision run the same update with [n + "5"] for [note]. *)
Definition toggleMelodyNote (note : string) (s : State) : State :=
  setSelectedMelody
    (if bool_decide (note ∈ selectedMelody s)
     then filter (λ n, n ≠ note) (selectedMelody s)
     else selectedMelody s ++ [note])
    s.

(** [clearMelody] *)
Definition clearMelody (s : State) : State := setSelectedMelody [] s.

(** [handleBassClick(note)] *)
Definition handleBassClick (note : string) (s : State) : State :=
  setBassNote (Some note) s.

Section BassSuggestions.
Context `{Host}.

(** [suggestBassNotes()].  For a chord without notes [i % 0] is [NaN], the
    element read is [undefined] and the suggestion is the string
    ["undefined2"]. *)
Definition suggestBassNotes (s : State) : list string :=
  if negb (truthy (selectedChord s)) then []
  else
    let chordInfo := Chord_get (default "" (selectedChord s)) in
    (λ i, match chordNotes chordInfo with
          | [] => "undefined"
          | _ => default "undefined"
                   (chordNotes chordInfo
                      !! (i mod length (chordNotes chordInfo)))
          end +:+ "2")
      <$> [0; 2; 4].

End BassSuggestions.

(** *** The chord loop

    The effect that keeps the selected chord sounding every 2000 ms.  The
    timers of the page are the live intervals, each with the state its
    [playChord] callback closes over; [loopInterval] is the ref. *)
Record Intervals := mkIntervals {
  nextId : nat;
  live : gmap nat State;
  loopInterval : option nat;
}.

(** [if (loopInterval.current) clearInterval(loopInterval.current)]; a
    timer id of 0 is falsy. *)
Definition clearLoopInterval (w : Intervals) : Intervals :=
  match loopInterval w with
  | Some id =>
      if bool_decide (id = 0) then w
      else mkIntervals (nextId w) (delete id (live w)) (loopInterval w)
  | None => w
  end.

(** The body of the effect, run in a render with state [s]. *)
Definition loopEffect (s : State) (w : Intervals) : Intervals :=
  if loop s && truthy (selectedChord s) then
    mkIntervals (S (nextId w)) (<[nextId w := s]> (live w)) (Some (nextId w))
  else clearLoopInterval w.

(** The function the effect returns. *)
Definition loopCleanup (w : Intervals) : Intervals := clearLoopInterval w.

(** The component mounts with state [s0]; then each state of [later] makes
    React run the cleanup of the previous run and the effect anew. *)
Definition loopRuns (s0 : State) (later : list State) : Intervals :=
  foldl (λ w s, loopEffect s (loopCleanup w))
    (loopEffect s0 (mkIntervals 1 ∅ None)) later.

Section LoopTick.
Context `{Host}.

(** One period of 2000 ms: every live interval calls its [playChord()]. *)
Definition loopTick (w : Intervals) : Rng (list Trigger) :=
  foldr (λ '(_, s) rest, out ← playChord s (notes s); more ← rest;
                         mret (out ++ more))
    (mret []) (map_to_list (live w)).

End LoopTick.

(** *** The keys of the keyboard *)
Module PianoKeys.

Definition whiteNotes : list string := ["C"; "D"; "E"; "F"; "G"; "A"; "B"].
Definition blackNotes : list string := ["C#"; "D#"; "F#"; "G#"; "A#"].

(** [blackNotes.includes(sharp)] *)
Definition includes (l : list string) (x : string) : bool :=
  existsb (String.eqb x) l.

Definition generateWhiteKeys (startOctave octaves : nat) : list string :=
  foldl (λ keys i,
           foldl (λ keys note, keys ++ [note +:+ Number_toString i])
             keys whiteNotes)
    [] (seq startOctave octaves).

Record BlackKey := mkBlackKey { note : string; position : nat }.

(** The inner loop over [j] for octave [i]; the state is [keys] and
    [index]. *)
Definition blackKeysOfOctave (i : nat) (acc : list BlackKey * nat)
    : list BlackKey * nat :=
  foldl (λ '(keys, index) note,
           let sharp := note +:+ "#" in
           (if includes blackNotes sharp
            then keys ++ [mkBlackKey (sharp +:+ Number_toString i) index]
            else keys,
            S index))
    acc whiteNotes.

Definition generateBlackKeys (startOctave octaves : nat) : list BlackKey :=
  (foldl (λ acc i, blackKeysOfOctave i acc) ([], 0)
     (seq startOctave octaves)).1.

(** The keyboard the component draws. *)
Definition whiteKeys : list string := generateWhiteKeys 3 3.
Definition blackKeys : list BlackKey := generateBlackKeys 3 3.

End PianoKeys.

(** ** A sample page

    First aliases and an ASCII [toLowerCase] for the closed examples. *)
Module SamplePage.

Definition chordTypes : list string := ["M"; "m"; "maj7"; "7"; "m7"; "dim"].

Definition lowerAscii (c : ascii) : ascii :=
  let n := nat_of_ascii c in
  if (65 <=? n) && (n <=? 90) then ascii_of_nat (n + 32) else c.

Fixpoint toLowerCase (s : string) : string :=
  match s with
  | String c rest => String (lowerAscii c) (toLowerCase rest)
  | EmptyString => EmptyString
  end.

End SamplePage.

(** ** Vocabulary of the properties *)

(** The toggles and settings a handler leaves alone. *)
Definition sameSettings {C} (s s' : StateOf C) : Prop :=
  useRootAsBass s' = useRootAsBass s ∧ isMuted s' = isMuted s
  ∧ playStyle s' = playStyle s ∧ duration s' = duration s
  ∧ velocity s' = velocity s ∧ inversion s' = inversion s
  ∧ harmonicsMode s' = harmonicsMode s ∧ loop s' = loop s
  ∧ eightBarLoop s' = eightBarLoop s.

(** The single-chord selection is cleared. *)
Definition selectionCleared {C} (s : StateOf C) : Prop :=
  selectedChord s = None ∧ notes s = [] ∧ bassNote s = None
  ∧ selectedMelody s = [].

(** A state of the first revision seen as one of the second, and a trigger
    on note names seen as one on cells. *)
Definition cells (s : State) : StateOf Rev2.Cell :=
  mkState (selectedChord s) (Some <$> notes s) (bassNote s) (useRootAsBass s)
    (isMuted s) (playStyle s) (duration s) (velocity s) (selectedMelody s)
    (inversion s) (harmonicsMode s) (loop s) (eightBarLoop s) (progression s).

Definition cellTrigger (t : Trigger) : TriggerOf Rev2.Cell :=
  mkTrigger
    match voicing t with
    | Single note => Single (Some note)
    | Together pitches => Together (Some <$> pitches)
    end
    (noteLength t) (onset t) (volume t).

Section Vocabulary.
Context `{Host}.

(** A resolver answer [p] that is a pitch class: [Note.pitchClass] returns it
    unchanged, and recovers it from the name [p] makes with octave 4. *)
Definition pitchClassName (p : string) : Prop :=
  Note_pitchClass p = p ∧ Note_pitchClass (p +:+ "4") = p.

(** The trigger call [playNext] makes for chord symbol [c] on a synth of
    volume [v]: the whole chord at octave 4 in one call. *)
Definition chordTrigger (s : State) (v : Q) (c : string) : Trigger :=
  mkTrigger
    (Together ((λ n, Note_pitchClass n +:+ "4") <$> chordNotes (Chord_get c)))
    (timeMap (duration s)) None (Some v).

(** One pass over the stored progression begun at time [start]. *)
Definition pass (s : State) (v : Q) (start : Z) (chords : list string)
    : list (Z * Trigger) :=
  imap (λ j c, ((start + 1500 * Z.of_nat j)%Z, chordTrigger s v c)) chords.

(** The reading of "recomputed on every trigger call": the [j]-th trigger
    call of a playback that starts at draw [k] carries the loudness of a draw
    of its own, the [(k + j)]-th. *)
Definition freshPerTrigger (s : State) (k : nat) (log : list Trigger) : Prop :=
  ∀ j t, log !! j = Some t →
    ∃ v, volume t = Some v ∧ (v == (getHumanizedVelocity s (k + j)%nat).1)%Q.

End Vocabulary.

(** ** Sample sessions *)

(** A session with a chord selected, a one-chord progression stored and
    the Mute box ticked: the state in which the Play Progression button is
    on screen and the sound is supposed to be off. *)
Definition mutedSession : State :=
  mkState (Some "Cmaj7") ["C4"; "E4"; "G4"; "B4"] (Some "C2") true
    true chord medium mediumV ["E5"] false false false false ["Cmaj7"].

(** Two sessions with the template progression of three chords stored, the
    eight-bar loop off and on. *)
Definition threeChords : State :=
  mkState (Some "Cmaj7") ["C4"; "E4"; "G4"; "B4"] (Some "C2") true
    false chord medium mediumV [] false false false false
    ["Cmaj7"; "G7"; "Fmaj7"].

Definition threeChordsLooped : State :=
  mkState (Some "Cmaj7") ["C4"; "E4"; "G4"; "B4"] (Some "C2") true
    false chord medium mediumV [] false false false true
    ["Cmaj7"; "G7"; "Fmaj7"].

(** A chord on screen and Harmonics ticked before the next one is chosen. *)
Definition harmonicsSession : State :=
  mkState (Some "G7") ["G4"; "B4"; "D4"; "F4"] (Some "G2") true false chord
    medium mediumV [] false true false false [].





(** * Properties *)

(** ** Mute *)
Section Mute.
Context `{Host}.

Lemma playChord_muted s customNotes k :
  isMuted s = true → playChord s customNotes k = ([], k).
Proof. intros Hm. unfold playChord. rewrite Hm. reflexivity. Qed.

Lemma handleSelect_muted chordName s k :
  isMuted s = true → (handleSelect chordName s k).1.2 = [].
Proof.
  intros Hm. unfold handleSelect, mbind, Rng_bind.
  rewrite playChord_muted by assumption. reflexivity.
Qed.

Lemma playMelodyPreview_muted s :
  isMuted s = true → playMelodyPreview s = [].
Proof.
  intros Hm. unfold playMelodyPreview. rewrite Hm, orb_true_r. reflexivity.
Qed.

Lemma Piano_muted p synth note :
  Piano.muted p = true →
  Piano.playbackEffect p synth = []
  ∧ Piano.playbackEffect_old p synth = []
  ∧ Piano.handleKeyClick p synth note = [].
Proof.
  intros Hm.
  unfold Piano.playbackEffect, Piano.playbackEffect_old, Piano.handleKeyClick.
  rewrite Hm, orb_true_r. auto.
Qed.

(** [playProgression] never reads [isMuted]: whenever a chord is stored, its
    first callback sounds that chord. *)
Lemma playProgression_first s c rest fuel k :
  progression s = c :: rest →
  ∃ t log pending,
    playProgression s (S fuel) k = ((0%Z, t) :: log, pending, S k)
    ∧ voicing t
      = Together ((λ n, Note_pitchClass n +:+ "4") <$> chordNotes (Chord_get c)).
Proof.
  intros Hp. unfold playProgression, mbind, Rng_bind, getHumanizedVelocity.
  rewrite Hp. simpl. unfold playNext. rewrite Hp. simpl.
  destruct (timers s fuel _ _) as [log pending]. simpl. eauto.
Qed.

End Mute.

(** C1 (the progression walk): with the muted flag set, [playChord] and
    [playMelodyPreview] are silent, but [playProgression] on a stored
    one-chord progression makes a trigger call all the same, whereas the
    specification asks for none under mute. *)
Theorem C1_playProgression_sounds_when_muted :
  isMuted mutedSession = true
  ∧ (playChord (H := SampleHost.host) mutedSession (notes mutedSession) 0).1 = []
  ∧ playMelodyPreview mutedSession = []
  ∧ ∃ v, (playProgression (H := SampleHost.host) mutedSession 2 0).1
         = ([(0%Z, mkTrigger (Together ["C4"; "E4"; "G4"; "B4"]) "2n" None
                    (Some v))],
            None)
         ∧ (v == -14)%Q.
Proof.
  split; [reflexivity |]. split; [reflexivity |]. split; [reflexivity |].
  eexists. split; vm_compute; reflexivity.
Qed.

(** ** Progression store *)

(** C8: appending while no chord is selected leaves the stored list as it
    was. *)
Theorem C8_append_without_selection s :
  selectedChord s = None →
  progression (addToProgression s) = progression s.
Proof. intros Hsel. unfold addToProgression. rewrite Hsel. reflexivity. Qed.

Lemma C8_append_without_selection_witness :
  selectedChord (setProgression ["Dm7"; "G7"] initialState) = None
  ∧ progression (addToProgression (setProgression ["Dm7"; "G7"] initialState))
    = ["Dm7"; "G7"].
Proof.
  split; [reflexivity |].
  apply (C8_append_without_selection (setProgression ["Dm7"; "G7"] initialState)).
  reflexivity.
Defined.

Lemma addToProgression_selected s c :
  selectedChord s = Some c → c ≠ "" →
  progression (addToProgression s) = progression s ++ [c].
Proof.
  intros Hsel Hc. unfold addToProgression. rewrite Hsel. simpl.
  destruct (String.eqb_spec c ""); [contradiction | reflexivity].
Qed.

(** C9: picking a template, through the card grid of the first revision or
    the drop-down of the second, stores the template's chords and in the same
    step clears the selected chord, the chord pitches, the bass pitch and the
    melody; the toggles are untouched. *)
Theorem C9_template_replaces_and_resets (s : State) :
  (∀ template,
     let s' := ChordProgressionSection.onClick template onSelect s in
     progression s' = ChordProgressionSection.chords template
     ∧ selectionCleared s' ∧ sameSettings s s')
  ∧ (∀ C (s2 : StateOf C) inherited label chords,
       Rev2.progressionTemplates !! label = Some chords →
       ∃ s', Rev2.onTemplateChange inherited label s2 = Some s'
             ∧ progression s' = chords ∧ selectionCleared s'
             ∧ sameSettings s2 s').
Proof.
  split.
  - intros template. repeat split.
  - intros C s2 inherited label chords Hl. unfold Rev2.onTemplateChange.
    assert (truthy (Some label) = true) as ->.
    { simpl. destruct (String.eqb_spec label ""); [subst | reflexivity].
      vm_compute in Hl. discriminate. }
    rewrite Hl. eexists. split; [reflexivity |]. repeat split.
Qed.

Lemma C9_template_replaces_and_resets_witness :
  Rev2.progressionTemplates !! "12-Bar Blues" = Some ["C7"; "F7"; "C7"; "G7"]
  ∧ ∃ s', Rev2.onTemplateChange (λ _, false) "12-Bar Blues" mutedSession
          = Some s'
          ∧ progression s' = ["C7"; "F7"; "C7"; "G7"] ∧ selectionCleared s'.
Proof.
  split; [vm_compute; reflexivity |].
  destruct (C9_template_replaces_and_resets mutedSession) as [_ Hdrop].
  destruct (Hdrop string mutedSession (λ _, false) "12-Bar Blues"
              ["C7"; "F7"; "C7"; "G7"]) as (s' & Hs' & Hp & Hc & _).
  - vm_compute; reflexivity.
  - exists s'. split; [exact Hs' |]. split; assumption.
Defined.

(** ** Chord selection *)
Section Selection.
Context `{Host}.

Lemma Rev2_handleSelect_state u chordName (s : StateOf Rev2.Cell) k :
  (Rev2.handleSelect u chordName s k).1.1
  = setSelectedMelody []
      (setNotes (Rev2.fullNotes u s (Chord_get chordName))
         (setBassNote
            (if useRootAsBass s && truthy (tonic (Chord_get chordName))
             then Some (default "" (tonic (Chord_get chordName)) +:+ "2")
             else None)
            (setSelectedChord (Some chordName) s))).
Proof.
  unfold Rev2.handleSelect, mbind, Rng_bind.
  destruct (Rev2.playChord s _ k). reflexivity.
Qed.

(** C10: whatever melody was selected before, the state a chord selection
    leads to has an empty melody selection, in both revisions of
    [handleSelect]; in the second for every state, toggle and chord, the
    chord without notes under inversion included. *)
Theorem C10_select_resets_melody chordName (s : State) :
  (∀ k, selectedMelody (handleSelect chordName s k).1.1 = [])
  ∧ (∀ pitchClassOfUndefined (s2 : StateOf Rev2.Cell) k,
       selectedMelody
         (Rev2.handleSelect pitchClassOfUndefined chordName s2 k).1.1 = []).
Proof.
  split.
  - intros k. unfold handleSelect, mbind, Rng_bind.
    destruct (playChord s _ k). reflexivity.
  - intros u s2 k. rewrite Rev2_handleSelect_state. reflexivity.
Qed.

End Selection.

(** ** Note derivation *)
Section Derivation.
Context `{Host}.

Lemma handleSelect_state chordName s k :
  (handleSelect chordName s k).1.1
  = setSelectedMelody []
      (setNotes (fullNotes s (Chord_get chordName))
         (setBassNote
            (if truthy (tonic (Chord_get chordName))
             then Some (default "" (tonic (Chord_get chordName)) +:+ "2")
             else None)
            (setSelectedChord (Some chordName) s))).
Proof.
  unfold handleSelect, mbind, Rng_bind. destruct (playChord s _ k). reflexivity.
Qed.

Lemma handleSelect_sound chordName s k :
  ((handleSelect chordName s k).1.2, (handleSelect chordName s k).2)
  = playChord s (fullNotes s (Chord_get chordName)) k.
Proof.
  unfold handleSelect, mbind, Rng_bind. destruct (playChord s _ k). reflexivity.
Qed.

Lemma fullNotes_plain s chordInfo :
  harmonicsMode s = false →
  fullNotes s chordInfo
  = (λ n, Note_pitchClass n +:+ "4") <$> chordNotes chordInfo.
Proof. intros Hh. unfold fullNotes. rewrite Hh. reflexivity. Qed.

Lemma fullNotes_harmonics s chordInfo :
  harmonicsMode s = true →
  fullNotes s chordInfo
  = imap (λ i n,
            Note_pitchClass (Note_pitchClass n +:+ "4")
              +:+ Number_toString (4 + i / 2))
      (chordNotes chordInfo).
Proof. intros Hh. unfold fullNotes. rewrite Hh, imap_fmap. reflexivity. Qed.

(** C3: with harmonics mode on, the chord pitches [handleSelect] derives are
    the resolver's pitch classes in their order, the one at index [i] in
    octave [4 + floor(i/2)]. *)
Theorem C3_harmonics_spread chordName s k :
  harmonicsMode s = true →
  Forall pitchClassName (chordNotes (Chord_get chordName)) →
  let derived := notes (handleSelect chordName s k).1.1 in
  length derived = length (chordNotes (Chord_get chordName))
  ∧ ∀ i p, chordNotes (Chord_get chordName) !! i = Some p →
           derived !! i = Some (p +:+ Number_toString (4 + i / 2)).
Proof.
  intros Hh Hpc derived. subst derived.
  rewrite handleSelect_state. simpl.
  rewrite fullNotes_harmonics by assumption. split.
  - apply length_imap.
  - intros i p Hi. rewrite list_lookup_imap, Hi. simpl.
    rewrite Forall_lookup in Hpc. destruct (Hpc i p Hi) as [Hfix H4].
    rewrite Hfix, H4. reflexivity.
Qed.

(** C5: with no bass pitch, no melody and harmonics off, the chord pitches
    are the resolver's pitch classes at octave 4 in the resolver's order,
    and the playback set built from them holds nothing else. *)
Theorem C5_plain_derivation chordName s k :
  bassNote s = None → selectedMelody s = [] → harmonicsMode s = false →
  Forall (λ p, Note_pitchClass p = p) (chordNotes (Chord_get chordName)) →
  let derived := notes (handleSelect chordName s k).1.1 in
  derived = (λ p, p +:+ "4") <$> chordNotes (Chord_get chordName)
  ∧ allNotes s derived = (λ p, p +:+ "4") <$> chordNotes (Chord_get chordName).
Proof.
  intros Hb Hm Hh Hpc derived. subst derived.
  rewrite handleSelect_state. simpl.
  rewrite fullNotes_plain by assumption.
  assert ((λ n, Note_pitchClass n +:+ "4") <$> chordNotes (Chord_get chordName)
          = (λ p, p +:+ "4") <$> chordNotes (Chord_get chordName)) as ->.
  { apply Forall_fmap_ext. eapply Forall_impl; [exact Hpc |].
    intros p Hp. simpl in Hp. rewrite Hp. reflexivity. }
  split; [reflexivity |].
  unfold allNotes. rewrite Hb, Hm. simpl. apply app_nil_r.
Qed.

(** A chord that resolves to no pitch makes [playChord] return before it
    touches the synth. *)
Lemma playChord_nothing s k : playChord s [] k = ([], k).
Proof. unfold playChord. rewrite orb_true_r. reflexivity. Qed.

(** On the selection path a chord symbol that resolves to zero pitches is
    silent: it gives an empty list of chord pitches and an empty melody, and
    neither [handleSelect] nor a later [playChord] of the new state makes a
    trigger call; when the resolver also reports no tonic the whole playback
    set is empty and the keyboard's playback effect is silent too. *)
Lemma handleSelect_unresolved_silent chordName (s : State) k :
  chordNotes (Chord_get chordName) = [] →
  let s' := (handleSelect chordName s k).1.1 in
  (handleSelect chordName s k).1.2 = []
  ∧ notes s' = [] ∧ selectedMelody s' = []
  ∧ (∀ k', (playChord s' (notes s') k').1 = [])
  ∧ (truthy (tonic (Chord_get chordName)) = false →
     allNotes s' (notes s') = []
     ∧ ∀ synth, Piano.playbackEffect (pianoProps s') synth = []
                ∧ Piano.playbackEffect_old (pianoProps s') synth = []).
Proof.
  intros Hnone s'.
  assert (fullNotes s (Chord_get chordName) = []) as Hfull.
  { unfold fullNotes. rewrite Hnone. simpl. destruct (harmonicsMode s); reflexivity. }
  pose proof (handleSelect_sound chordName s k) as Hsound.
  rewrite Hfull, playChord_nothing in Hsound.
  subst s'. rewrite handleSelect_state, Hfull. simpl.
  split; [congruence |]. split; [reflexivity |]. split; [reflexivity |].
  split; [intros k'; rewrite playChord_nothing; reflexivity |].
  intros Hroot. rewrite Hroot. split; [reflexivity |].
  intros synth.
  unfold Piano.playbackEffect, Piano.playbackEffect_old. simpl.
  destruct (isMuted s); split; reflexivity.
Qed.


End Derivation.

(** ** Progression walk *)
Section Walk.
Context `{Host}.

Lemma pass_length s v start chords :
  length (pass s v start chords) = length chords.
Proof. apply length_imap. Qed.

Lemma pass_lookup s v start chords j c :
  chords !! j = Some c →
  pass s v start chords !! j
  = Some ((start + 1500 * Z.of_nat j)%Z, chordTrigger s v c).
Proof. intros Hj. unfold pass. rewrite list_lookup_imap, Hj. reflexivity. Qed.

Lemma playNext_chord s v i c :
  progression s !! i = Some c →
  playNext s (mkWalk i v) = ([chordTrigger s v c], mkWalk (S i) v, Some 1500%Z).
Proof.
  intros Hi. unfold playNext. simpl.
  rewrite bool_decide_eq_false_2
    by (apply lookup_lt_Some in Hi; lia).
  rewrite Hi. reflexivity.
Qed.

Lemma playNext_stop s v i :
  length (progression s) ≤ i → eightBarLoop s = false →
  playNext s (mkWalk i v) = ([], mkWalk i v, None).
Proof.
  intros Hi Hl. unfold playNext. simpl.
  rewrite bool_decide_eq_true_2 by assumption. rewrite Hl. reflexivity.
Qed.

Lemma playNext_pause s v i :
  length (progression s) ≤ i → eightBarLoop s = true →
  playNext s (mkWalk i v) = ([], mkWalk 0 v, Some 1500%Z).
Proof.
  intros Hi Hl. unfold playNext. simpl.
  rewrite bool_decide_eq_true_2 by assumption. rewrite Hl. reflexivity.
Qed.

(** From index [length played] on, the callbacks sound the chords still to
    come 1500 ms apart and leave the index at the end of the list. *)
Lemma timers_chords s v rest :
  ∀ played now fuel,
    progression s = played ++ rest →
    timers s (length rest + fuel) now (mkWalk (length played) v)
    = (pass s v now rest
         ++ (timers s fuel (now + 1500 * Z.of_nat (length rest))
               (mkWalk (length (progression s)) v)).1,
       (timers s fuel (now + 1500 * Z.of_nat (length rest))
          (mkWalk (length (progression s)) v)).2).
Proof.
  induction rest as [| c rest IH]; intros played now fuel Hp.
  - rewrite Hp, app_nil_r. cbn [length Nat.add pass imap app].
    replace (now + 1500 * Z.of_nat 0)%Z with now by lia.
    destruct (timers s fuel now _); reflexivity.
  - cbn [length Nat.add timers].
    rewrite (playNext_chord s v (length played) c)
      by (rewrite Hp; apply list_lookup_middle; reflexivity).
    specialize (IH (played ++ [c]) (now + 1500)%Z fuel).
    rewrite length_app in IH. simpl in IH.
    replace (length played + 1) with (S (length played)) in IH by lia.
    rewrite IH by (rewrite <- app_assoc; exact Hp).
    replace (now + 1500 + 1500 * Z.of_nat (length rest))%Z
      with (now + 1500 * Z.of_nat (S (length rest)))%Z by lia.
    unfold pass. rewrite imap_cons. cbn [fmap list_fmap app fst snd].
    replace (now + 1500 * Z.of_nat 0)%Z with now by lia.
    do 3 f_equal. apply imap_ext. intros j x _. simpl.
    f_equal. lia.
Qed.

Lemma timers_whole_pass s v now fuel :
  timers s (length (progression s) + fuel) now (mkWalk 0 v)
  = (pass s v now (progression s)
       ++ (timers s fuel (now + 1500 * Z.of_nat (length (progression s)))
             (mkWalk (length (progression s)) v)).1,
     (timers s fuel (now + 1500 * Z.of_nat (length (progression s)))
        (mkWalk (length (progression s)) v)).2).
Proof. apply (timers_chords s v (progression s) []). reflexivity. Qed.

(** With the loop flag set, a pass and its closing pause take
    [length + 1] callbacks and put the walk back at index 0. *)
Lemma timers_period s v now fuel :
  eightBarLoop s = true →
  timers s (length (progression s) + S fuel) now (mkWalk 0 v)
  = (pass s v now (progression s)
       ++ (timers s fuel
             (now + 1500 * Z.of_nat (length (progression s) + 1))
             (mkWalk 0 v)).1,
     (timers s fuel (now + 1500 * Z.of_nat (length (progression s) + 1))
        (mkWalk 0 v)).2).
Proof.
  intros Hl. rewrite timers_whole_pass. cbn [timers].
  rewrite playNext_pause by (auto with lia).
  replace (now + 1500 * Z.of_nat (length (progression s)) + 1500)%Z
    with (now + 1500 * Z.of_nat (length (progression s) + 1))%Z by lia.
  destruct (timers s fuel _ _). reflexivity.
Qed.

(** C2: the walk over a non-empty progression of length [n] sounds the chord
    at each index in order, each as one simultaneous trigger, 1500 ms apart.
    With the eight-bar-loop flag off the callback that finds the index at [n]
    arms no timer: the [n] triggers are all there is, however long one
    watches.  With the flag on that callback waits a further 1500 ms and
    sounds the first chord again, at [1500 * (n + 1)] ms, and every later
    pass repeats the first one. *)
Theorem C2_progression_walk s k :
  progression s ≠ [] →
  let n := length (progression s) in
  let v := (getHumanizedVelocity s k).1 in
  (eightBarLoop s = false →
   ∀ fuel, n < fuel →
     (playProgression s fuel k).1 = (pass s v 0 (progression s), None))
  ∧ (eightBarLoop s = true →
     (∀ c0, progression s !! 0 = Some c0 →
        (playProgression s (n + 2) k).1
        = (pass s v 0 (progression s)
             ++ [((1500 * Z.of_nat (n + 1))%Z, chordTrigger s v c0)],
           Some ((1500 * Z.of_nat (n + 2))%Z, mkWalk 1 v)))
     ∧ ∀ fuel start,
         timers s (n + S fuel) start (mkWalk 0 v)
         = (pass s v start (progression s)
              ++ (timers s fuel (start + 1500 * Z.of_nat (n + 1))
                    (mkWalk 0 v)).1,
            (timers s fuel (start + 1500 * Z.of_nat (n + 1)) (mkWalk 0 v)).2)).
Proof.
  intros Hne n v.
  assert (∀ fuel, (playProgression s fuel k).1 = timers s fuel 0 (mkWalk 0 v))
    as Hplay.
  { intros fuel. unfold playProgression.
    rewrite bool_decide_eq_false_2
      by (destruct (progression s); [contradiction | discriminate]).
    reflexivity. }
  split.
  - intros Hl fuel Hfuel. rewrite Hplay.
    replace fuel with (n + S (fuel - S n)) by lia.
    subst n. rewrite timers_whole_pass. cbn [timers].
    rewrite playNext_stop by (auto with lia). simpl.
    rewrite app_nil_r. reflexivity.
  - intros Hl. split.
    + intros c0 Hc0. rewrite Hplay.
      replace (n + 2) with (n + S 1) by lia.
      subst n. rewrite timers_period by assumption. cbn [timers].
      rewrite (playNext_chord s v 0 c0) by assumption. simpl.
      do 3 f_equal. f_equal. lia.
    + intros fuel start. subst n. apply timers_period. assumption.
Qed.

End Walk.

Lemma C2_progression_walk_witness :
  progression threeChords ≠ [] ∧ progression threeChordsLooped ≠ []
  ∧ (playProgression (H := SampleHost.host) threeChords 9 0).1
    = ([ (0%Z, mkTrigger (Together ["C4"; "E4"; "G4"; "B4"]) "2n" None
                 (Some (-280 # 20)));
         (1500%Z, mkTrigger (Together ["G4"; "B4"; "D4"; "F4"]) "2n" None
                    (Some (-280 # 20)));
         (3000%Z, mkTrigger (Together ["F4"; "A4"; "C4"; "E4"]) "2n" None
                    (Some (-280 # 20))) ],
       None)
  ∧ (playProgression (H := SampleHost.host) threeChordsLooped 5 0).1
    = ([ (0%Z, mkTrigger (Together ["C4"; "E4"; "G4"; "B4"]) "2n" None
                 (Some (-280 # 20)));
         (1500%Z, mkTrigger (Together ["G4"; "B4"; "D4"; "F4"]) "2n" None
                    (Some (-280 # 20)));
         (3000%Z, mkTrigger (Together ["F4"; "A4"; "C4"; "E4"]) "2n" None
                    (Some (-280 # 20)));
         (6000%Z, mkTrigger (Together ["C4"; "E4"; "G4"; "B4"]) "2n" None
                    (Some (-280 # 20))) ],
       Some (7500%Z, mkWalk 1 (-280 # 20))).
Proof.
  assert (progression threeChords ≠ []) as Hne by discriminate.
  assert (progression threeChordsLooped ≠ []) as Hne' by discriminate.
  split; [exact Hne |]. split; [exact Hne' |]. split.
  - exact (proj1 (C2_progression_walk (H := SampleHost.host) threeChords 0 Hne)
             eq_refl 9 ltac:(simpl; lia)).
  - exact (proj1 (proj2 (C2_progression_walk (H := SampleHost.host)
                           threeChordsLooped 0 Hne') eq_refl)
             "Cmaj7" eq_refl).
Defined.

(** ** Loudness *)
Section Loudness.
Context `{Host}.

Lemma getHumanizedVelocity_range (s : State) k :
  (0 <= Math_random k)%Q → (Math_random k < 1)%Q →
  (velocityMap (velocity s) - 2 <= (getHumanizedVelocity s k).1)%Q
  ∧ ((getHumanizedVelocity s k).1 <= velocityMap (velocity s) + 2)%Q.
Proof.
  intros Hlo Hhi. unfold getHumanizedVelocity. simpl.
  generalize dependent (Math_random k). intros r Hlo Hhi.
  generalize (velocityMap (velocity s)). intros b.
  split; lra.
Qed.

Lemma playChord_volume s customNotes k t :
  t ∈ (playChord s customNotes k).1 →
  volume t = Some (getHumanizedVelocity s k).1.
Proof.
  unfold playChord.
  destruct (isMuted s || bool_decide (length customNotes = 0)).
  - simpl. intros Ht. apply elem_of_nil in Ht. contradiction.
  - unfold mbind, Rng_bind, getHumanizedVelocity. simpl.
    destruct (playStyle s).
    + intros Ht. apply list_elem_of_singleton in Ht. subst t. reflexivity.
    + intros Ht. apply elem_of_lookup_imap_1 in Ht.
      destruct Ht as (i & note & -> & _). reflexivity.
Qed.

Lemma playChord_draws s customNotes k :
  isMuted s = false → customNotes ≠ [] →
  (playChord s customNotes k).2 = S k.
Proof.
  intros Hm Hne. unfold playChord. rewrite Hm.
  destruct customNotes; [contradiction | reflexivity].
Qed.

Lemma timers_volume s v :
  ∀ fuel now i at_ t,
    (at_, t) ∈ (timers s fuel now (mkWalk i v)).1 → volume t = Some v.
Proof.
  induction fuel as [| fuel IH]; intros now i at_ t.
  - simpl. intros Ht. apply elem_of_nil in Ht. contradiction.
  - cbn [timers]. unfold playNext. cbn [walkIndex walkVolume].
    destruct (bool_decide (length (progression s) ≤ i)).
    + destruct (eightBarLoop s).
      * destruct (timers s fuel (now + 1500)%Z (mkWalk 0 v)) eqn:Ht.
        simpl. intros Hin. apply (IH (now + 1500)%Z 0 at_ t).
        rewrite Ht. exact Hin.
      * simpl. intros Hin. apply elem_of_nil in Hin. contradiction.
    + destruct (timers s fuel (now + 1500)%Z (mkWalk (S i) v)) eqn:Ht.
      simpl. intros Hin. apply elem_of_cons in Hin.
      destruct Hin as [Heq | Hin].
      * inversion Heq. reflexivity.
      * apply (IH (now + 1500)%Z (S i) at_ t). rewrite Ht. exact Hin.
Qed.

Lemma playProgression_volume s fuel k at_ t :
  (at_, t) ∈ (playProgression s fuel k).1.1 →
  volume t = Some (getHumanizedVelocity s k).1.
Proof.
  unfold playProgression.
  destruct (bool_decide (length (progression s) = 0)).
  - simpl. intros Ht. apply elem_of_nil in Ht. contradiction.
  - unfold mbind, Rng_bind, getHumanizedVelocity. simpl.
    apply timers_volume.
Qed.

Lemma playProgression_draws s fuel k :
  progression s ≠ [] → (playProgression s fuel k).2 = S k.
Proof.
  intros Hne. unfold playProgression.
  destruct (progression s); [contradiction | reflexivity].
Qed.

(** C4, as the code has it: the loudness is the base value [b] of the
    velocity class plus the random offset [(Math.random() - 0.5) * 4] and
    lies in [[b - 2, b + 2]]; it is drawn once by each [playChord] and each
    [playProgression] call that sounds, and every trigger call of that
    playback (each step of an arpeggio, each chord of a walk and of its
    repeats) carries that one value; the next playback draws again. *)
Theorem C4_jitter_drawn_once_per_playback (s : State) k :
  (0 <= Math_random k)%Q → (Math_random k < 1)%Q →
  let b := velocityMap (velocity s) in
  let v := (getHumanizedVelocity s k).1 in
  v = (b + (Math_random k - (1 # 2)) * 4)%Q
  ∧ (b - 2 <= v)%Q ∧ (v <= b + 2)%Q
  ∧ (∀ customNotes,
       (∀ t, t ∈ (playChord s customNotes k).1 → volume t = Some v)
       ∧ (isMuted s = false → customNotes ≠ [] →
          (playChord s customNotes k).2 = S k))
  ∧ (∀ fuel,
       (∀ at_ t, (at_, t) ∈ (playProgression s fuel k).1.1 → volume t = Some v)
       ∧ (progression s ≠ [] → (playProgression s fuel k).2 = S k)).
Proof.
  intros Hlo Hhi b v.
  destruct (getHumanizedVelocity_range s k Hlo Hhi) as [Hge Hle].
  split; [reflexivity |].
  split; [exact Hge |]. split; [exact Hle |]. split.
  - intros customNotes. split.
    + intros t. apply playChord_volume.
    + apply playChord_draws.
  - intros fuel. split.
    + intros at_ t. apply playProgression_volume.
    + apply playProgression_draws.
Qed.

End Loudness.

(** A walk over three chords makes three trigger calls but draws one random
    number, and its second call does not carry the loudness of a draw of its
    own. *)
Lemma C4_counterexample :
  length (playProgression (H := SampleHost.host) threeChords 9 0).1.1 = 3
  ∧ (playProgression (H := SampleHost.host) threeChords 9 0).2 = 1
  ∧ ¬ freshPerTrigger (H := SampleHost.host) threeChords 0
        ((playProgression (H := SampleHost.host) threeChords 9 0).1.1.*2).
Proof.
  split; [vm_compute; reflexivity |]. split; [vm_compute; reflexivity |].
  intros Hfresh.
  destruct (Hfresh 1
              (mkTrigger (Together ["G4"; "B4"; "D4"; "F4"]) "2n" None
                 (Some (-280 # 20))))
    as (v & Hv & Heq); [vm_compute; reflexivity |].
  injection Hv as <-. vm_compute in Heq. discriminate.
Qed.

Lemma C4_jitter_drawn_once_per_playback_witness :
  (0 <= Math_random (Host := SampleHost.host) 3%nat)%Q
  ∧ (Math_random (Host := SampleHost.host) 3%nat < 1)%Q
  ∧ (velocityMap (velocity threeChords) - 2
     <= (getHumanizedVelocity (H := SampleHost.host) threeChords 3%nat).1)%Q
  ∧ ((getHumanizedVelocity (H := SampleHost.host) threeChords 3%nat).1
     <= velocityMap (velocity threeChords) + 2)%Q
  ∧ (playProgression (H := SampleHost.host) threeChords 9 3).2 = 4.
Proof.
  assert (0 <= Math_random (Host := SampleHost.host) 3%nat)%Q as Hlo
    by (vm_compute; discriminate).
  assert (Math_random (Host := SampleHost.host) 3%nat < 1)%Q as Hhi
    by (vm_compute; reflexivity).
  split; [exact Hlo |]. split; [exact Hhi |].
  destruct (C4_jitter_drawn_once_per_playback (H := SampleHost.host)
              threeChords 3 Hlo Hhi) as (_ & Hge & Hle & _ & Hwalk).
  split; [exact Hge |]. split; [exact Hle |].
  apply (Hwalk 9). discriminate.
Defined.

(** ** Closed instances on the sample host *)

Lemma C3_harmonics_spread_witness :
  harmonicsMode harmonicsSession = true
  ∧ Forall (pitchClassName (H := SampleHost.host))
      (chordNotes (Chord_get (Host := SampleHost.host) "Cmaj7"))
  ∧ length (notes (handleSelect (H := SampleHost.host) "Cmaj7"
                     harmonicsSession 0).1.1) = 4
  ∧ notes (handleSelect (H := SampleHost.host) "Cmaj7" harmonicsSession 0).1.1
      !! 0 = Some "C4"
  ∧ notes (handleSelect (H := SampleHost.host) "Cmaj7" harmonicsSession 0).1.1
      !! 1 = Some "E4"
  ∧ notes (handleSelect (H := SampleHost.host) "Cmaj7" harmonicsSession 0).1.1
      !! 2 = Some "G5"
  ∧ notes (handleSelect (H := SampleHost.host) "Cmaj7" harmonicsSession 0).1.1
      !! 3 = Some "B5".
Proof.
  assert (Forall (pitchClassName (H := SampleHost.host))
            (chordNotes (Chord_get (Host := SampleHost.host) "Cmaj7"))) as Hpc.
  { repeat (constructor; [split; vm_compute; reflexivity |]). constructor. }
  destruct (C3_harmonics_spread (H := SampleHost.host) "Cmaj7"
              harmonicsSession 0 eq_refl Hpc) as [Hlen Hat].
  split; [reflexivity |]. split; [exact Hpc |]. split; [exact Hlen |].
  split; [exact (Hat 0 "C" eq_refl) |]. split; [exact (Hat 1 "E" eq_refl) |].
  split; [exact (Hat 2 "G" eq_refl) | exact (Hat 3 "B" eq_refl)].
Defined.

Lemma C5_plain_derivation_witness :
  bassNote initialState = None ∧ selectedMelody initialState = []
  ∧ harmonicsMode initialState = false
  ∧ Forall (λ p, Note_pitchClass (Host := SampleHost.host) p = p)
      (chordNotes (Chord_get (Host := SampleHost.host) "Bb7"))
  ∧ notes (handleSelect (H := SampleHost.host) "Bb7" initialState 0).1.1
    = ["Bb4"; "D4"; "F4"; "Ab4"]
  ∧ allNotes initialState
      (notes (handleSelect (H := SampleHost.host) "Bb7" initialState 0).1.1)
    = ["Bb4"; "D4"; "F4"; "Ab4"].
Proof.
  assert (Forall (λ p, Note_pitchClass (Host := SampleHost.host) p = p)
            (chordNotes (Chord_get (Host := SampleHost.host) "Bb7"))) as Hpc.
  { repeat (constructor; [vm_compute; reflexivity |]). constructor. }
  split; [reflexivity |]. split; [reflexivity |]. split; [reflexivity |].
  split; [exact Hpc |].
  exact (C5_plain_derivation (H := SampleHost.host) "Bb7" initialState 0
           eq_refl eq_refl eq_refl Hpc).
Defined.




(** * Further properties of the component *)

(** ** Suggestions *)
Section SuggestionFacts.
Variable chordTypes : list string.
Variable toLowerCase : string → string.

Lemma candidates_elem x :
  x ∈ candidates chordTypes ↔
  ∃ root type, root ∈ allRoots ∧ type ∈ chordTypes ∧ x = root +:+ type.
Proof.
  unfold candidates. rewrite list_elem_of_bind. split.
  - intros (root & Hx & Hroot). apply list_elem_of_fmap in Hx.
    destruct Hx as (type & -> & Htype). eauto.
  - intros (root & type & Hroot & Htype & ->). exists root. split; [| done].
    apply list_elem_of_fmap. eauto.
Qed.

(** The list shown under the search box holds at most ten names; each is a
    root followed by a chord type whose lower-cased form starts with the
    lower-cased query, and the names keep the order of the root-by-type
    table. *)
Theorem filteredSuggestions_sound query :
  length (filteredSuggestions chordTypes toLowerCase query) ≤ 10
  ∧ filteredSuggestions chordTypes toLowerCase query
      `sublist_of` candidates chordTypes
  ∧ ∀ x, x ∈ filteredSuggestions chordTypes toLowerCase query →
         String.prefix (toLowerCase query) (toLowerCase x) = true
         ∧ ∃ root type, root ∈ allRoots ∧ type ∈ chordTypes
                        ∧ x = root +:+ type.
Proof.
  unfold filteredSuggestions. split; [rewrite length_take; lia |]. split.
  - etransitivity; [apply sublist_take | apply sublist_filter].
  - intros x Hx. apply subseteq_take in Hx.
    apply list_elem_of_filter in Hx. destruct Hx as [Hm Hc]. split.
    + unfold matches in Hm. apply Is_true_true. exact Hm.
    + apply candidates_elem. exact Hc.
Qed.

(** When at most ten names of the table match the query, every one of them
    is suggested: the cut to ten drops nothing. *)
Theorem filteredSuggestions_complete query root type :
  length (filter (λ chordName, matches toLowerCase query chordName)
            (candidates chordTypes)) ≤ 10 →
  root ∈ allRoots → type ∈ chordTypes →
  String.prefix (toLowerCase query) (toLowerCase (root +:+ type)) = true →
  root +:+ type ∈ filteredSuggestions chordTypes toLowerCase query.
Proof.
  intros Hfew Hroot Htype Hm. unfold filteredSuggestions.
  rewrite take_ge by assumption. apply list_elem_of_filter. split.
  - unfold matches. apply Is_true_true. exact Hm.
  - apply candidates_elem. eauto.
Qed.

End SuggestionFacts.

Lemma filteredSuggestions_sound_witness :
  "C#m7" ∈ filteredSuggestions SamplePage.chordTypes SamplePage.toLowerCase "c#M"
  ∧ String.prefix (SamplePage.toLowerCase "c#M") (SamplePage.toLowerCase "C#m7")
    = true.
Proof.
  assert ("C#m7" ∈ filteredSuggestions SamplePage.chordTypes
                      SamplePage.toLowerCase "c#M") as Hin.
  { vm_compute. repeat constructor. }
  split; [exact Hin |].
  exact (proj1 (proj2 (proj2 (filteredSuggestions_sound SamplePage.chordTypes
                                SamplePage.toLowerCase "c#M")) "C#m7" Hin)).
Defined.

Lemma filteredSuggestions_complete_witness :
  length (filter (λ chordName, matches SamplePage.toLowerCase "g#" chordName)
            (candidates SamplePage.chordTypes)) ≤ 10
  ∧ "G#dim" ∈ filteredSuggestions SamplePage.chordTypes SamplePage.toLowerCase
                "g#".
Proof.
  assert (length (filter (λ chordName,
                            matches SamplePage.toLowerCase "g#" chordName)
                    (candidates SamplePage.chordTypes)) ≤ 10) as Hfew.
  { vm_compute. lia. }
  split; [exact Hfew |].
  apply (filteredSuggestions_complete SamplePage.chordTypes
           SamplePage.toLowerCase "g#" "G#" "dim" Hfew).
  - vm_compute. repeat constructor.
  - vm_compute. repeat constructor.
  - reflexivity.
Defined.

(** ** Melody selection *)

Lemma toggleMelodyNote_elem note s m :
  m ∈ selectedMelody (toggleMelodyNote note s) ↔
  (m = note ∧ note ∉ selectedMelody s) ∨ (m ≠ note ∧ m ∈ selectedMelody s).
Proof.
  unfold toggleMelodyNote. simpl. case_bool_decide as Hin.
  - rewrite list_elem_of_filter. split.
    + intros [Hne Hm]. right. split; assumption.
    + intros [[-> Hout] | [Hne Hm]]; [contradiction | split; assumption].
  - rewrite elem_of_app, list_elem_of_singleton. split.
    + intros [Hm | ->].
      * right. split; [intros -> | assumption]. contradiction.
      * left. split; [reflexivity | assumption].
    + intros [[-> _] | [_ Hm]]; [right; reflexivity | left; assumption].
Qed.

(** One click on a melody button flips that note and no other: afterwards
    the note is selected exactly if it was not, and every other note is
    selected exactly if it was. *)
Theorem toggleMelodyNote_flips note s m :
  m ∈ selectedMelody (toggleMelodyNote note s) ↔
  (m = note ∧ note ∉ selectedMelody s) ∨ (m ≠ note ∧ m ∈ selectedMelody s).
Proof. apply toggleMelodyNote_elem. Qed.

Lemma toggleMelodyNote_flips_bool note s m :
  bool_decide (m ∈ selectedMelody (toggleMelodyNote note s))
  = xorb (bool_decide (m ∈ selectedMelody s)) (bool_decide (note = m)).
Proof.
  pose proof (toggleMelodyNote_elem note s m) as Hflip.
  destruct (decide (note = m)) as [Heq | Hne],
           (decide (m ∈ selectedMelody s)) as [Hin | Hout].
  - rewrite (bool_decide_eq_true_2 _ Hin), (bool_decide_eq_true_2 _ Heq).
    apply bool_decide_eq_false_2. subst m. intros Hm. apply Hflip in Hm.
    destruct Hm as [[_ Hm] | [Hm _]]; [apply Hm, Hin | apply Hm; reflexivity].
  - rewrite (bool_decide_eq_false_2 _ Hout), (bool_decide_eq_true_2 _ Heq).
    apply bool_decide_eq_true_2. subst m. apply Hflip. left.
    split; [reflexivity | assumption].
  - rewrite (bool_decide_eq_true_2 _ Hin), (bool_decide_eq_false_2 _ Hne).
    apply bool_decide_eq_true_2. apply Hflip. right.
    split; [intros -> | assumption]. apply Hne. reflexivity.
  - rewrite (bool_decide_eq_false_2 _ Hout), (bool_decide_eq_false_2 _ Hne).
    apply bool_decide_eq_false_2. intros Hm. apply Hflip in Hm.
    destruct Hm as [[-> _] | [_ Hm]]; [apply Hne; reflexivity | apply Hout, Hm].
Qed.

Lemma toggleMelodyNote_NoDup note s :
  NoDup (selectedMelody s) → NoDup (selectedMelody (toggleMelodyNote note s)).
Proof.
  intros Hnd. unfold toggleMelodyNote. simpl. case_bool_decide as Hin.
  - apply NoDup_filter. exact Hnd.
  - apply NoDup_app. split; [exact Hnd |]. split; [| apply NoDup_singleton].
    intros x Hx Hx'. apply list_elem_of_singleton in Hx'. subst x. contradiction.
Qed.

(** However the melody buttons are clicked, a selection without repeats
    stays without repeats, and a note ends up selected exactly if it was
    selected before and clicked an even number of times, or not selected and
    clicked an odd number of times. *)
Theorem toggleMelodyNote_clicks clicks :
  ∀ s, NoDup (selectedMelody s) →
    let s' := foldl (λ s note, toggleMelodyNote note s) s clicks in
    NoDup (selectedMelody s')
    ∧ ∀ m, bool_decide (m ∈ selectedMelody s')
           = xorb (bool_decide (m ∈ selectedMelody s))
               (Nat.odd (length (filter (λ note, note = m) clicks))).
Proof.
  induction clicks as [| note clicks IH]; intros s Hnd; simpl.
  - split; [exact Hnd |]. intros m. rewrite xorb_false_r. reflexivity.
  - destruct (IH (toggleMelodyNote note s) (toggleMelodyNote_NoDup note s Hnd))
      as [Hnd' Hmem].
    split; [exact Hnd' |]. intros m.
    rewrite Hmem, toggleMelodyNote_flips_bool, filter_cons.
    destruct (decide (note = m)) as [Heq | Hne].
    + rewrite (bool_decide_eq_true_2 _ Heq). cbn [length].
      rewrite Nat.odd_succ, <- Nat.negb_odd.
      destruct (bool_decide _), (Nat.odd _); reflexivity.
    + rewrite (bool_decide_eq_false_2 _ Hne), xorb_false_r. reflexivity.
Qed.

(** Clicking a note that is not selected and clicking it again gives back
    the state one started from. *)
Theorem toggleMelodyNote_twice note s :
  note ∉ selectedMelody s →
  toggleMelodyNote note (toggleMelodyNote note s) = s.
Proof.
  intros Hout. unfold toggleMelodyNote at 2.
  rewrite bool_decide_eq_false_2 by assumption.
  unfold toggleMelodyNote. simpl.
  rewrite bool_decide_eq_true_2
    by (apply elem_of_app; right; apply list_elem_of_singleton; reflexivity).
  rewrite filter_app, filter_cons_False, filter_nil, app_nil_r
    by (intros Hne; apply Hne; reflexivity).
  assert (filter (λ n, n ≠ note) (selectedMelody s) = selectedMelody s) as Hid.
  { induction (selectedMelody s) as [| x l IHl]; [reflexivity |].
    rewrite filter_cons_True
      by (intros ->; apply Hout; apply list_elem_of_here).
    rewrite IHl; [reflexivity |].
    intros Hin. apply Hout. apply list_elem_of_further. exact Hin. }
  rewrite Hid. destruct s. reflexivity.
Qed.

Lemma toggleMelodyNote_flips_witness :
  "E5" ∈ selectedMelody (toggleMelodyNote "D5" mutedSession)
  ∧ "D5" ∈ selectedMelody (toggleMelodyNote "D5" mutedSession)
  ∧ "E5" ∉ selectedMelody (toggleMelodyNote "E5" mutedSession).
Proof.
  split; [| split].
  - apply (toggleMelodyNote_flips "D5" mutedSession "E5"). right.
    split; [discriminate | vm_compute; repeat constructor].
  - apply (toggleMelodyNote_flips "D5" mutedSession "D5"). left.
    split; [reflexivity |].
    intros Hin. apply list_elem_of_singleton in Hin. discriminate.
  - intros Hin.
    apply (toggleMelodyNote_flips "E5" mutedSession "E5") in Hin.
    destruct Hin as [[_ Hout] | [Hne _]].
    + apply Hout. vm_compute. repeat constructor.
    + apply Hne. reflexivity.
Defined.

Lemma toggleMelodyNote_clicks_witness :
  NoDup (selectedMelody mutedSession)
  ∧ NoDup (selectedMelody
             (foldl (λ s note, toggleMelodyNote note s) mutedSession
                ["D5"; "E5"; "D5"; "G5"; "D5"])).
Proof.
  assert (NoDup (selectedMelody mutedSession)) as Hnd
    by (apply NoDup_singleton).
  split; [exact Hnd |].
  exact (proj1 (toggleMelodyNote_clicks ["D5"; "E5"; "D5"; "G5"; "D5"]
                  mutedSession Hnd)).
Defined.

Lemma toggleMelodyNote_twice_witness :
  ("D5" ∉ selectedMelody mutedSession)
  ∧ toggleMelodyNote "D5" (toggleMelodyNote "D5" mutedSession) = mutedSession.
Proof.
  assert ("D5" ∉ selectedMelody mutedSession) as Hout.
  { intros Hin. apply list_elem_of_singleton in Hin. discriminate. }
  split; [exact Hout |].
  exact (toggleMelodyNote_twice "D5" mutedSession Hout).
Defined.

(** ** Bass suggestions and the sound of a selection *)
Section SelectionFacts.
Context `{Host}.

(** With a chord selected there are always three bass suggestions.  For a
    chord with notes each is one of its notes followed by ["2"], the first
    being the chord's first note; for a chord without notes all three are
    the text ["undefined2"]. *)
Theorem suggestBassNotes_three s c :
  selectedChord s = Some c → c ≠ "" →
  length (suggestBassNotes s) = 3
  ∧ (chordNotes (Chord_get c) = [] →
     suggestBassNotes s = ["undefined2"; "undefined2"; "undefined2"])
  ∧ (chordNotes (Chord_get c) ≠ [] →
     (∀ b, b ∈ suggestBassNotes s →
           ∃ n, n ∈ chordNotes (Chord_get c) ∧ b = n +:+ "2")
     ∧ ∀ first, chordNotes (Chord_get c) !! 0 = Some first →
                suggestBassNotes s !! 0 = Some (first +:+ "2")).
Proof.
  intros Hsel Hc. unfold suggestBassNotes. rewrite Hsel. simpl.
  destruct (String.eqb_spec c "") as [Heq | _]; [contradiction |]. simpl.
  split; [reflexivity |]. split.
  - intros ->. reflexivity.
  - intros Hne. destruct (chordNotes (Chord_get c)) as [| n0 rest] eqn:Hn;
      [contradiction |].
    set (l := n0 :: rest). split.
    + intros b Hb.
      assert (∀ i, ∃ n, n ∈ l ∧ default "undefined" (l !! (i mod length l)) = n)
        as Hat.
      { intros i.
        destruct (lookup_lt_is_Some_2 l (i mod length l)) as [n Hl].
        - apply Nat.mod_upper_bound. discriminate.
        - exists n. rewrite Hl. split; [| reflexivity].
          eapply list_elem_of_lookup_2. exact Hl. }
      assert (∃ i, b = default "undefined" (l !! (i mod length l)) +:+ "2")
        as [i ->].
      { apply elem_of_cons in Hb. destruct Hb as [-> | Hb]; [by exists 0 |].
        apply elem_of_cons in Hb. destruct Hb as [-> | Hb]; [by exists 2 |].
        apply list_elem_of_singleton in Hb. subst b. by exists 4. }
      destruct (Hat i) as (n & Hin & Hn'). exists n.
      split; [exact Hin |]. rewrite Hn'. reflexivity.
    + intros first Hfirst. simpl in Hfirst. injection Hfirst as <-.
      cbn [fmap list_fmap lookup list_lookup].
      rewrite Nat.Div0.mod_0_l. reflexivity.
Qed.

(** What [handleSelect] sounds, when it sounds in chord style, is one
    trigger of the bass pitch and the melody that were on screen before the
    click around the new chord pitches, while the state it stores has the
    bass pitch of the new chord's tonic and no melody. *)
Theorem handleSelect_sounds_previous_bass_and_melody chordName s k :
  isMuted s = false → playStyle s = chord →
  chordNotes (Chord_get chordName) ≠ [] →
  let s' := (handleSelect chordName s k).1.1 in
  (∃ v, (handleSelect chordName s k).1.2
        = [mkTrigger
             (Together (spreadIf (bassNote s) ++ notes s' ++ selectedMelody s))
             (timeMap (duration s)) None (Some v)])
  ∧ selectedChord s' = Some chordName
  ∧ selectedMelody s' = []
  ∧ bassNote s'
    = (if truthy (tonic (Chord_get chordName))
       then Some (default "" (tonic (Chord_get chordName)) +:+ "2")
       else None).
Proof.
  intros Hm Hstyle Hne s'. subst s'.
  pose proof (handleSelect_sound chordName s k) as Hsound.
  rewrite handleSelect_state. simpl.
  split; [| repeat split].
  assert (fullNotes s (Chord_get chordName) ≠ []) as Hfull.
  { unfold fullNotes. destruct (chordNotes (Chord_get chordName));
      [contradiction |]. destruct (harmonicsMode s); discriminate. }
  unfold playChord in Hsound. rewrite Hm, Hstyle in Hsound.
  destruct (fullNotes s (Chord_get chordName)) as [| n0 rest] eqn:Hfn;
    [contradiction |].
  simpl in Hsound. unfold mbind, Rng_bind, getHumanizedVelocity in Hsound.
  simpl in Hsound. injection Hsound as Hout _. rewrite Hout.
  eexists. reflexivity.
Qed.

Lemma Rev2_playChord_cells (s : State) customNotes k :
  Rev2.playChord (cells s) (Some <$> customNotes) k
  = (cellTrigger <$> (playChord s customNotes k).1, (playChord s customNotes k).2).
Proof.
  unfold Rev2.playChord, playChord. simpl. rewrite length_fmap.
  destruct (isMuted s || bool_decide (length customNotes = 0));
    [reflexivity |].
  unfold mbind, Rng_bind, mret, Rng_ret, getHumanizedVelocity. simpl.
  assert (Rev2.allNotes (cells s) (Some <$> customNotes)
          = Some <$> allNotes s customNotes) as ->.
  { unfold Rev2.allNotes, allNotes. simpl. rewrite !fmap_app. reflexivity. }
  destruct (playStyle s); simpl; [reflexivity |].
  rewrite imap_fmap, fmap_imap. reflexivity.
Qed.

(** With the inversion toggle off and the root used as bass, the second
    revision's [handleSelect] is the first revision's: the same next state,
    the same trigger calls, the same random numbers drawn. *)
Theorem Rev2_handleSelect_agrees chordName (s : State) :
  inversion s = false → useRootAsBass s = true →
  ∀ pitchClassOfUndefined k,
    Rev2.handleSelect pitchClassOfUndefined chordName (cells s) k
    = (cells (handleSelect chordName s k).1.1,
       cellTrigger <$> (handleSelect chordName s k).1.2,
       (handleSelect chordName s k).2).
Proof.
  intros Hinv Hroot u k.
  assert (Rev2.fullNotes u (cells s) (Chord_get chordName)
          = Some <$> fullNotes s (Chord_get chordName)) as Hfull.
  { unfold Rev2.fullNotes, fullNotes. simpl. rewrite Hinv.
    destruct (harmonicsMode s).
    - rewrite !imap_fmap, fmap_imap. reflexivity.
    - rewrite <- list_fmap_compose. reflexivity. }
  unfold Rev2.handleSelect, handleSelect, mbind, Rng_bind.
  rewrite Hfull, Rev2_playChord_cells.
  destruct (playChord s _ k) as [out k']. simpl. rewrite Hroot. simpl.
  reflexivity.
Qed.

Lemma Rev2_invert_cons (g : string → Rev2.Cell) first rest :
  Rev2.invert (g <$> first :: rest) = g <$> (rest ++ [first]).
Proof. unfold Rev2.invert. rewrite fmap_app. reflexivity. Qed.

(** With the inversion toggle on, the chord pitches of the second revision
    are those the first revision derives from the resolver's notes with the
    first note moved to the end. *)
Theorem Rev2_inversion_rotates (s : State) chordInfo first rest :
  inversion s = true → chordNotes chordInfo = first :: rest →
  ∀ pitchClassOfUndefined,
    Rev2.fullNotes pitchClassOfUndefined (cells s) chordInfo
    = Some <$> fullNotes s {| tonic := tonic chordInfo;
                              chordNotes := rest ++ [first] |}.
Proof.
  intros Hinv Hn u. unfold Rev2.fullNotes, fullNotes.
  change (inversion (cells s)) with (inversion s).
  change (harmonicsMode (cells s)) with (harmonicsMode s).
  cbn [chordNotes]. rewrite Hinv, Hn, Rev2_invert_cons.
  destruct (harmonicsMode s).
  - rewrite !imap_fmap, fmap_imap. reflexivity.
  - rewrite <- list_fmap_compose. reflexivity.
Qed.

(** A name chosen and then added to the progression ends up last in the
    stored list, behind everything that was stored. *)
Theorem handleSelect_then_addToProgression chordName s k :
  chordName ≠ "" →
  progression (addToProgression (handleSelect chordName s k).1.1)
  = progression s ++ [chordName].
Proof.
  intros Hc. rewrite handleSelect_state.
  rewrite (addToProgression_selected _ chordName); [reflexivity | reflexivity |].
  exact Hc.
Qed.

(** The melody preview, when it sounds, makes one trigger per selected
    melody note, in order, 0.3 apart, each an eighth note on a synth whose
    volume is never set; chord and bass pitches are not part of it. *)
Theorem playMelodyPreview_notes s :
  isMuted s = false → selectedMelody s ≠ [] →
  length (playMelodyPreview s) = length (selectedMelody s)
  ∧ ∀ i note, selectedMelody s !! i = Some note →
      playMelodyPreview s !! i
      = Some (mkTrigger (Single note) "8n" (Some (Qnat i * (3 # 10))%Q) None).
Proof.
  intros Hm Hne. unfold playMelodyPreview. rewrite Hm, orb_false_r.
  rewrite bool_decide_eq_false_2
    by (destruct (selectedMelody s); [contradiction | discriminate]).
  split; [apply length_imap |].
  intros i note Hi. rewrite list_lookup_imap, Hi. reflexivity.
Qed.

End SelectionFacts.

Lemma suggestBassNotes_three_witness :
  selectedChord mutedSession = Some "Cmaj7" ∧ "Cmaj7" ≠ ""
  ∧ chordNotes (Chord_get (Host := SampleHost.host) "Cmaj7") ≠ []
  ∧ length (suggestBassNotes (H := SampleHost.host) mutedSession) = 3
  ∧ suggestBassNotes (H := SampleHost.host) mutedSession !! 0 = Some "C2".
Proof.
  assert ("Cmaj7" ≠ "") as Hc by discriminate.
  assert (chordNotes (Chord_get (Host := SampleHost.host) "Cmaj7") ≠ [])
    as Hne by discriminate.
  destruct (suggestBassNotes_three (H := SampleHost.host) mutedSession "Cmaj7"
              eq_refl Hc) as (Hlen & _ & Htones).
  destruct (Htones Hne) as [_ Hfirst].
  split; [reflexivity |]. split; [exact Hc |]. split; [exact Hne |].
  split; [exact Hlen | exact (Hfirst "C" eq_refl)].
Defined.

Lemma handleSelect_sounds_previous_bass_and_melody_witness :
  isMuted threeChords = false ∧ playStyle threeChords = chord
  ∧ chordNotes (Chord_get (Host := SampleHost.host) "G7") ≠ []
  ∧ bassNote threeChords = Some "C2"
  ∧ bassNote (handleSelect (H := SampleHost.host) "G7" threeChords 0).1.1
    = Some "G2"
  ∧ ∃ v, (handleSelect (H := SampleHost.host) "G7" threeChords 0).1.2
         = [mkTrigger (Together ["C2"; "G4"; "B4"; "D4"; "F4"]) "2n" None
              (Some v)].
Proof.
  assert (chordNotes (Chord_get (Host := SampleHost.host) "G7") ≠ [])
    as Hne by discriminate.
  destruct (handleSelect_sounds_previous_bass_and_melody
              (H := SampleHost.host) "G7" threeChords 0 eq_refl eq_refl Hne)
    as (Hsound & _ & _ & Hbass).
  split; [reflexivity |]. split; [reflexivity |]. split; [exact Hne |].
  split; [reflexivity |]. split; [exact Hbass | exact Hsound].
Defined.

Lemma Rev2_handleSelect_agrees_witness :
  inversion threeChords = false ∧ useRootAsBass threeChords = true
  ∧ Rev2.handleSelect (H := SampleHost.host) "" "Am" (cells threeChords) 0
    = (cells (handleSelect (H := SampleHost.host) "Am" threeChords 0).1.1,
       cellTrigger
         <$> (handleSelect (H := SampleHost.host) "Am" threeChords 0).1.2,
       (handleSelect (H := SampleHost.host) "Am" threeChords 0).2).
Proof.
  split; [reflexivity |]. split; [reflexivity |].
  exact (Rev2_handleSelect_agrees (H := SampleHost.host) "Am" threeChords
           eq_refl eq_refl "" 0).
Defined.

(** The three-chord session with the inversion box ticked. *)
Lemma Rev2_inversion_rotates_witness :
  chordNotes (Chord_get (Host := SampleHost.host) "Am") = ["A"; "C"; "E"]
  ∧ Rev2.fullNotes (H := SampleHost.host) ""
      (cells (mkState (Some "Cmaj7") [] None true false chord medium mediumV
                [] true false false false []))
      (Chord_get (Host := SampleHost.host) "Am")
    = [Some "C4"; Some "E4"; Some "A4"].
Proof.
  split; [reflexivity |].
  exact (Rev2_inversion_rotates (H := SampleHost.host)
           (mkState (Some "Cmaj7") [] None true false chord medium mediumV []
              true false false false [])
           (Chord_get (Host := SampleHost.host) "Am") "A" ["C"; "E"]
           eq_refl eq_refl "").
Defined.

(** The second revision with the inversion box ticked and a chord that
    resolves to no note: the array read at index 0 is empty, the derived
    array is [[undefined]], or [["4"]] with harmonics when the resolver
    answers the empty string for [undefined]; the melody is reset all the
    same, and unmuted the chord sounds with that one cell. *)
Lemma Rev2_handleSelect_unresolved_inverted :
  notes (Rev2.handleSelect (H := SampleHost.host) "" "H13"
           (cells (mkState None [] None true false chord medium mediumV
                     ["E5"] true true false false [])) 0).1.1
  = [Some "4"]
  ∧ notes (Rev2.handleSelect (H := SampleHost.host) "" "H13"
             (cells (mkState None [] None true false chord medium mediumV
                       ["E5"] true false false false [])) 0).1.1
    = [None]
  ∧ voicing
      <$> (Rev2.handleSelect (H := SampleHost.host) "" "H13"
             (cells (mkState None [] None true false chord medium mediumV
                       ["E5"] true false false false [])) 0).1.2
    = [Together [None; Some "E5"]].
Proof. repeat split. Qed.

Lemma handleSelect_then_addToProgression_witness :
  "Dm7" ≠ ""
  ∧ progression
      (addToProgression
         (handleSelect (H := SampleHost.host) "Dm7" threeChords 0).1.1)
    = ["Cmaj7"; "G7"; "Fmaj7"; "Dm7"].
Proof.
  assert ("Dm7" ≠ "") as Hc by discriminate.
  split; [exact Hc |].
  exact (handleSelect_then_addToProgression (H := SampleHost.host) "Dm7"
           threeChords 0 Hc).
Defined.

Lemma playMelodyPreview_notes_witness :
  isMuted (toggleMelodyNote "D5" threeChords) = false
  ∧ selectedMelody (toggleMelodyNote "D5" threeChords) ≠ []
  ∧ length (playMelodyPreview (toggleMelodyNote "D5" threeChords)) = 1
  ∧ playMelodyPreview (toggleMelodyNote "D5" threeChords) !! 0
    = Some (mkTrigger (Single "D5") "8n" (Some (Qnat 0 * (3 # 10))%Q) None).
Proof.
  assert (selectedMelody (toggleMelodyNote "D5" threeChords) ≠ [])
    as Hne by discriminate.
  destruct (playMelodyPreview_notes (toggleMelodyNote "D5" threeChords)
              eq_refl Hne) as [Hlen Hat].
  split; [reflexivity |]. split; [exact Hne |].
  split; [exact Hlen | exact (Hat 0 "D5" eq_refl)].
Defined.

(** ** More on the progression *)
Section ProgressionFacts.
Context `{Host}.

(** Play Progression on an empty list does nothing at all: no trigger, no
    timer, and no random number drawn. *)
Theorem playProgression_empty s fuel k :
  progression s = [] → playProgression s fuel k = ([], None, k).
Proof. intros Hp. unfold playProgression. rewrite Hp. reflexivity. Qed.

Lemma playNext_reads_only s s' w :
  progression s = progression s' → duration s = duration s' →
  eightBarLoop s = eightBarLoop s' →
  playNext s w = playNext s' w.
Proof.
  intros Hp Hd Hl. unfold playNext. rewrite Hp, Hd, Hl. reflexivity.
Qed.

Lemma timers_reads_only s s' :
  progression s = progression s' → duration s = duration s' →
  eightBarLoop s = eightBarLoop s' →
  ∀ fuel now w, timers s fuel now w = timers s' fuel now w.
Proof.
  intros Hp Hd Hl. induction fuel as [| fuel IH]; intros now w;
    [reflexivity |].
  cbn [timers]. rewrite (playNext_reads_only s s' w Hp Hd Hl).
  destruct (playNext s' w) as [[out w'] [delay |]]; [| reflexivity].
  rewrite IH. reflexivity.
Qed.

(** The walk reads only the stored progression, the duration, the velocity
    and the eight-bar-loop flag: two states that agree on these four, however
    they differ in selected chord, chord pitches, bass, melody, harmonics,
    style or any other toggle, give the same triggers at the same times. *)
Theorem playProgression_reads_only s s' fuel k :
  progression s = progression s' → duration s = duration s' →
  velocity s = velocity s' → eightBarLoop s = eightBarLoop s' →
  playProgression s fuel k = playProgression s' fuel k.
Proof.
  intros Hp Hd Hv Hl.
  unfold playProgression, mbind, Rng_bind, getHumanizedVelocity.
  rewrite Hp, Hv. destruct (bool_decide _); [reflexivity |]. simpl.
  rewrite (timers_reads_only s s' Hp Hd Hl). reflexivity.
Qed.

Lemma timers_spaced s :
  ∀ fuel now w,
    Forall (λ e, (now ≤ e.1)%Z) (timers s fuel now w).1
    ∧ StronglySorted (λ a b, (a.1 + 1500 ≤ b.1)%Z) (timers s fuel now w).1.
Proof.
  induction fuel as [| fuel IH]; intros now w.
  - simpl. split; constructor.
  - cbn [timers]. unfold playNext.
    destruct (bool_decide (length (progression s) ≤ walkIndex w)).
    + destruct (eightBarLoop s).
      * destruct (IH (now + 1500)%Z (mkWalk 0 (walkVolume w))) as [Hlo Hs].
        destruct (timers s fuel _ _) as [log pending]. simpl in *.
        split; [| exact Hs].
        eapply Forall_impl; [exact Hlo |]. intros e He. simpl in He. lia.
      * simpl. split; constructor.
    + destruct (IH (now + 1500)%Z (mkWalk (S (walkIndex w)) (walkVolume w)))
        as [Hlo Hs].
      destruct (timers s fuel _ _) as [log pending]. simpl in *. split.
      * constructor; [simpl; lia |].
        eapply Forall_impl; [exact Hlo |]. intros e He. simpl in He. lia.
      * constructor; [exact Hs |].
        eapply Forall_impl; [exact Hlo |]. intros e He. simpl in *. lia.
Qed.

(** However long a walk runs, looping or not, its triggers come in time
    order and any two of them are at least 1500 ms apart. *)
Theorem playProgression_spacing s fuel k :
  StronglySorted (λ a b, (a.1 + 1500 ≤ b.1)%Z) (playProgression s fuel k).1.1.
Proof.
  unfold playProgression. destruct (bool_decide _); [constructor |].
  unfold mbind, Rng_bind, getHumanizedVelocity. simpl.
  apply timers_spaced.
Qed.

End ProgressionFacts.

Lemma playProgression_empty_witness :
  progression initialState = []
  ∧ playProgression (H := SampleHost.host) initialState 5 7 = ([], None, 7).
Proof.
  split; [reflexivity |].
  exact (playProgression_empty (H := SampleHost.host) initialState 5 7 eq_refl).
Defined.

Lemma playProgression_reads_only_witness :
  progression threeChords = progression (toggleMelodyNote "D5" threeChords)
  ∧ playProgression (H := SampleHost.host) threeChords 6 0
    = playProgression (H := SampleHost.host)
        (toggleMelodyNote "D5" threeChords) 6 0.
Proof.
  split; [reflexivity |].
  exact (playProgression_reads_only (H := SampleHost.host) threeChords
           (toggleMelodyNote "D5" threeChords) 6 0
           eq_refl eq_refl eq_refl eq_refl).
Defined.

(** After a template has replaced the progression no chord is selected, so
    Add to Progression changes nothing until a chord is chosen again; this
    holds for the card grid and for the drop-down. *)
Theorem addToProgression_after_template (s : State) :
  (∀ chords, addToProgression (onSelect chords s) = onSelect chords s)
  ∧ (∀ inherited label chords,
       Rev2.progressionTemplates !! label = Some chords →
       ∃ s', Rev2.onTemplateChange inherited label s = Some s'
             ∧ addToProgression s' = s').
Proof.
  split; [reflexivity |].
  intros inherited label chords Hl. unfold Rev2.onTemplateChange. rewrite Hl.
  destruct (truthy (Some label)) eqn:Ht.
  - eexists. split; reflexivity.
  - simpl in Ht. destruct (String.eqb_spec label "") as [-> | _];
      [| discriminate].
    vm_compute in Hl. discriminate.
Qed.

Lemma addToProgression_after_template_witness :
  Rev2.progressionTemplates !! "ii–V–I" = Some ["Dm7"; "G7"; "Cmaj7"]
  ∧ ∃ s', Rev2.onTemplateChange (λ _, false) "ii–V–I" threeChords = Some s'
          ∧ addToProgression s' = s'.
Proof.
  assert (Rev2.progressionTemplates !! "ii–V–I" = Some ["Dm7"; "G7"; "Cmaj7"])
    as Hl by (vm_compute; reflexivity).
  split; [exact Hl |].
  exact (proj2 (addToProgression_after_template threeChords)
           (λ _, false) "ii–V–I" ["Dm7"; "G7"; "Cmaj7"] Hl).
Defined.

(** A drop-down value that is neither a template label nor a name the
    templates object inherits leaves the whole state as it is, and so does
    the empty value; and once a value has been handled, handling the same
    value again changes nothing more. *)
Theorem onTemplateChange_unknown_and_again
    (inherited : string → bool) label (s : State) :
  (Rev2.progressionTemplates !! label = None → inherited label = false →
   Rev2.onTemplateChange inherited label s = Some s)
  ∧ Rev2.onTemplateChange inherited "" s = Some s
  ∧ ∀ s', Rev2.onTemplateChange inherited label s = Some s' →
          Rev2.onTemplateChange inherited label s' = Some s'.
Proof.
  unfold Rev2.onTemplateChange. split; [| split; [reflexivity |]].
  - intros -> ->. destruct (truthy (Some label)); reflexivity.
  - intros s'. destruct (truthy (Some label)); [| congruence].
    destruct (Rev2.progressionTemplates !! label).
    + intros [= <-]. reflexivity.
    + destruct (inherited label); congruence.
Qed.

Lemma onTemplateChange_unknown_and_again_witness :
  Rev2.progressionTemplates !! "Andalusian" = None
  ∧ Rev2.onTemplateChange
      (λ name, bool_decide (name ∈ ["constructor"; "toString"; "valueOf";
                                    "hasOwnProperty"; "isPrototypeOf";
                                    "propertyIsEnumerable"; "toLocaleString";
                                    "__proto__"]))
      "Andalusian" threeChords = Some threeChords.
Proof.
  assert (Rev2.progressionTemplates !! "Andalusian" = None) as Hl
    by (vm_compute; reflexivity).
  split; [exact Hl |].
  exact (proj1 (onTemplateChange_unknown_and_again _ "Andalusian" threeChords)
           Hl eq_refl).
Defined.

(** ** The keyboard's sound *)

(** [ChordSearch] passes the bass pitch and the melody to its keyboard twice,
    inside [notes] and as props of their own. *)
Lemma pianoProps_combined s :
  Piano.combined (pianoProps s)
  = spreadIf (bassNote s) ++ notes s ++ spreadIf (bassNote s)
      ++ selectedMelody s ++ selectedMelody s.
Proof.
  unfold Piano.combined, pianoProps. simpl.
  rewrite <- !app_assoc. reflexivity.
Qed.

(** On the props [ChordSearch] renders, the two revisions of the keyboard's
    playback effect make the same trigger calls, although their guards are
    written differently. *)
Theorem Piano_revisions_agree s synth :
  Piano.playbackEffect (pianoProps s) synth
  = Piano.playbackEffect_old (pianoProps s) synth.
Proof.
  unfold Piano.playbackEffect, Piano.playbackEffect_old.
  rewrite pianoProps_combined. unfold pianoProps. simpl.
  destruct (isMuted s); [rewrite orb_true_r; reflexivity |].
  rewrite orb_false_r. simpl.
  destruct (notes s) as [| n ns]; [| destruct (spreadIf (bassNote s)); reflexivity].
  destruct (spreadIf (bassNote s)) as [| b bs]; [| reflexivity].
  destruct (selectedMelody s); reflexivity.
Qed.

(** ** The chord loop *)
Section LoopFacts.
Context `{Host}.

Lemma clearLoopInterval_empty w :
  live w = ∅ → live (clearLoopInterval w) = ∅ ∧
  nextId (clearLoopInterval w) = nextId w.
Proof.
  intros Hl. unfold clearLoopInterval.
  destruct (loopInterval w) as [id |]; [| by split].
  case_bool_decide; [by split |]. simpl. rewrite Hl, delete_empty. by split.
Qed.

Lemma loopCleanup_clears s w id :
  0 < id → loopInterval w = Some id → live w = {[id := s]} →
  live (loopCleanup w) = ∅ ∧ nextId (loopCleanup w) = nextId w.
Proof.
  intros Hid Href Hl. unfold loopCleanup, clearLoopInterval. rewrite Href.
  rewrite bool_decide_eq_false_2 by lia. simpl.
  rewrite Hl, delete_singleton_eq. by split.
Qed.

Lemma loopEffect_fresh s w :
  live w = ∅ → 0 < nextId w →
  0 < nextId (loopEffect s w)
  ∧ if loop s && truthy (selectedChord s)
    then ∃ id, 0 < id ∧ loopInterval (loopEffect s w) = Some id
               ∧ live (loopEffect s w) = {[id := s]}
    else live (loopEffect s w) = ∅.
Proof.
  intros Hl Hn. unfold loopEffect.
  destruct (loop s && truthy (selectedChord s)); simpl.
  - split; [lia |]. exists (nextId w). rewrite Hl, insert_empty. by repeat split.
  - destruct (clearLoopInterval_empty w Hl) as [-> ->]. by split.
Qed.

Lemma loopRuns_invariant s0 later :
  0 < nextId (loopRuns s0 later)
  ∧ if loop (default s0 (last later))
       && truthy (selectedChord (default s0 (last later)))
    then ∃ id, 0 < id ∧ loopInterval (loopRuns s0 later) = Some id
               ∧ live (loopRuns s0 later) = {[id := default s0 (last later)]}
    else live (loopRuns s0 later) = ∅.
Proof.
  induction later as [| s later IH] using rev_ind.
  - apply loopEffect_fresh; [reflexivity | simpl; lia].
  - unfold loopRuns in *. rewrite foldl_snoc, last_snoc. simpl.
    set (w := foldl _ _ later) in *. destruct IH as [Hn IH].
    assert (live (loopCleanup w) = ∅ ∧ nextId (loopCleanup w) = nextId w)
      as [Hl Hn'].
    { destruct (loop _ && truthy _).
      - destruct IH as (id & Hid & Href & Hlive).
        eapply loopCleanup_clears; eassumption.
      - apply clearLoopInterval_empty. exact IH. }
    apply loopEffect_fresh; [exact Hl | lia].
Qed.

(** Whatever sequence of renders re-runs the loop effect, afterwards at most
    one interval is alive: exactly one, held by the ref and playing the
    latest of those states, when in that state the loop box is ticked and a
    chord is selected, and none otherwise.  So one period of the loop is one
    [playChord()] of that state, or silence. *)
Theorem loopRuns_one_interval s0 later :
  let s := default s0 (last later) in
  let w := loopRuns s0 later in
  (if loop s && truthy (selectedChord s)
   then ∃ id, loopInterval w = Some id ∧ live w = {[id := s]}
   else live w = ∅)
  ∧ ∀ k, loopTick w k
         = if loop s && truthy (selectedChord s)
           then playChord s (notes s) k else ([], k).
Proof.
  intros s w. subst s w.
  destruct (loopRuns_invariant s0 later) as [_ Hinv].
  destruct (loop _ && truthy _).
  - destruct Hinv as (id & _ & Href & Hlive). split; [eauto |].
    intros k. unfold loopTick. rewrite Hlive, map_to_list_singleton. simpl.
    unfold mbind, Rng_bind, mret, Rng_ret.
    destruct (playChord _ _ k) as [out k']. rewrite app_nil_r. reflexivity.
  - split; [exact Hinv |]. intros k. unfold loopTick.
    rewrite Hinv, map_to_list_empty. reflexivity.
Qed.

End LoopFacts.

(** ** The keys of the keyboard *)

Lemma generateWhiteKeys_step keys i :
  foldl (λ keys note, keys ++ [note +:+ Number_toString i]) keys
    PianoKeys.whiteNotes
  = keys ++ ((λ note, note +:+ Number_toString i) <$> PianoKeys.whiteNotes).
Proof. simpl. rewrite <- !app_assoc. reflexivity. Qed.

Lemma generateWhiteKeys_acc octaves :
  ∀ startOctave keys,
    foldl (λ keys i,
             foldl (λ keys note, keys ++ [note +:+ Number_toString i])
               keys PianoKeys.whiteNotes)
      keys (seq startOctave octaves)
    = keys ++ PianoKeys.generateWhiteKeys startOctave octaves.
Proof.
  unfold PianoKeys.generateWhiteKeys.
  induction octaves as [| n IH]; intros startOctave keys.
  - simpl. rewrite app_nil_r. reflexivity.
  - cbn [seq foldl]. rewrite IH. symmetry. rewrite IH.
    rewrite !generateWhiteKeys_step. rewrite app_assoc. reflexivity.
Qed.

Lemma generateWhiteKeys_succ startOctave octaves :
  PianoKeys.generateWhiteKeys startOctave (S octaves)
  = ((λ note, note +:+ Number_toString startOctave) <$> PianoKeys.whiteNotes)
      ++ PianoKeys.generateWhiteKeys (S startOctave) octaves.
Proof.
  unfold PianoKeys.generateWhiteKeys at 1. cbn [seq foldl].
  rewrite generateWhiteKeys_acc, generateWhiteKeys_step. reflexivity.
Qed.

(** The white key at index [7 * o + j] is the [j]-th letter in octave
    [startOctave + o]. *)
Lemma generateWhiteKeys_lookup octaves :
  ∀ startOctave o j letter,
    o < octaves → PianoKeys.whiteNotes !! j = Some letter →
    PianoKeys.generateWhiteKeys startOctave octaves !! (7 * o + j)
    = Some (letter +:+ Number_toString (startOctave + o)).
Proof.
  induction octaves as [| n IH]; intros startOctave o j letter Ho Hj; [lia |].
  assert (j < 7) as Hj7 by (apply lookup_lt_Some in Hj; exact Hj).
  rewrite generateWhiteKeys_succ. destruct o as [| o].
  - rewrite lookup_app_l by (rewrite length_fmap; simpl; lia).
    rewrite list_lookup_fmap. replace (7 * 0 + j) with j by lia.
    rewrite Hj. simpl. rewrite Nat.add_0_r. reflexivity.
  - rewrite lookup_app_r by (rewrite length_fmap; simpl; lia).
    rewrite length_fmap.
    replace (7 * S o + j - length PianoKeys.whiteNotes) with (7 * o + j)
      by (simpl; lia).
    rewrite (IH (S startOctave) o j letter) by (lia || assumption).
    do 3 f_equal. lia.
Qed.

Lemma blackKeysOfOctave_step i keys index :
  PianoKeys.blackKeysOfOctave i (keys, index)
  = (keys
       ++ [ PianoKeys.mkBlackKey (("C" +:+ "#") +:+ Number_toString i) index;
            PianoKeys.mkBlackKey (("D" +:+ "#") +:+ Number_toString i)
              (1 + index);
            PianoKeys.mkBlackKey (("F" +:+ "#") +:+ Number_toString i)
              (3 + index);
            PianoKeys.mkBlackKey (("G" +:+ "#") +:+ Number_toString i)
              (4 + index);
            PianoKeys.mkBlackKey (("A" +:+ "#") +:+ Number_toString i)
              (5 + index) ],
     7 + index).
Proof.
  unfold PianoKeys.blackKeysOfOctave. simpl. rewrite <- !app_assoc.
  reflexivity.
Qed.

(** After [o] octaves of the outer loop the index is [7 * o], there are
    [5 * o] black keys, and each sits at the index of the white key whose
    sharp it is. *)
Lemma generateBlackKeys_invariant startOctave octaves o :
  o ≤ octaves →
  let acc := foldl (λ acc i, PianoKeys.blackKeysOfOctave i acc) ([], 0)
               (seq startOctave o) in
  acc.2 = 7 * o ∧ length acc.1 = 5 * o
  ∧ ∀ key, key ∈ acc.1 →
      ∃ letter o', o' < o
        ∧ PianoKeys.note key
          = (letter +:+ "#") +:+ Number_toString (startOctave + o')
        ∧ PianoKeys.generateWhiteKeys startOctave octaves
            !! PianoKeys.position key
          = Some (letter +:+ Number_toString (startOctave + o')).
Proof.
  induction o as [| o IH]; intros Ho acc; subst acc.
  - simpl. split; [reflexivity |]. split; [reflexivity |].
    intros key Hkey. apply elem_of_nil in Hkey. contradiction.
  - rewrite seq_S, foldl_snoc.
    destruct (foldl _ _ (seq startOctave o)) as [keys index] eqn:Hacc.
    destruct IH as (Hindex & Hlen & Hkeys); [lia |]. simpl in Hindex, Hlen.
    rewrite blackKeysOfOctave_step. simpl.
    split; [lia |]. split; [rewrite length_app; simpl; lia |].
    intros key Hkey. apply elem_of_app in Hkey. destruct Hkey as [Hkey | Hkey].
    + destruct (Hkeys key Hkey) as (letter & o' & Ho' & Hnote & Hwhite).
      exists letter, o'. split; [lia |]. split; assumption.
    + assert (∃ letter j, PianoKeys.whiteNotes !! j = Some letter
                ∧ key = PianoKeys.mkBlackKey
                          ((letter +:+ "#") +:+ Number_toString (startOctave + o))
                          (7 * o + j)) as (letter & j & Hj & ->).
      { subst index.
        repeat (apply elem_of_cons in Hkey; destruct Hkey as [-> | Hkey]);
          [ exists "C", 0 | exists "D", 1 | exists "F", 3 | exists "G", 4
          | exists "A", 5 | apply elem_of_nil in Hkey; contradiction ];
          (split; [reflexivity | f_equal; lia]). }
      exists letter, o. split; [lia |]. split; [reflexivity |]. simpl.
      apply generateWhiteKeys_lookup; [lia | exact Hj].
Qed.

(** A keyboard of [octaves] octaves has seven white and five black keys per
    octave. *)
Theorem PianoKeys_counts startOctave octaves :
  length (PianoKeys.generateWhiteKeys startOctave octaves) = 7 * octaves
  ∧ length (PianoKeys.generateBlackKeys startOctave octaves) = 5 * octaves.
Proof.
  split.
  - revert startOctave. induction octaves as [| n IH]; intros startOctave;
      [reflexivity |].
    rewrite generateWhiteKeys_succ, length_app, length_fmap, IH. simpl. lia.
  - unfold PianoKeys.generateBlackKeys.
    exact (proj1 (proj2 (generateBlackKeys_invariant startOctave octaves
                           octaves (Nat.le_refl octaves)))).
Qed.

(** Every black key is drawn at the index of the white key of the same
    letter and octave: its name is that white key's letter, a sharp sign and
    the octave. *)
Theorem PianoKeys_black_on_white startOctave octaves key :
  key ∈ PianoKeys.generateBlackKeys startOctave octaves →
  ∃ letter o, o < octaves
    ∧ PianoKeys.note key
      = (letter +:+ "#") +:+ Number_toString (startOctave + o)
    ∧ PianoKeys.generateWhiteKeys startOctave octaves
        !! PianoKeys.position key
      = Some (letter +:+ Number_toString (startOctave + o)).
Proof.
  unfold PianoKeys.generateBlackKeys.
  exact (proj2 (proj2 (generateBlackKeys_invariant startOctave octaves octaves
                         (Nat.le_refl octaves))) key).
Qed.

Lemma PianoKeys_black_on_white_witness :
  PianoKeys.mkBlackKey "F#4" 10 ∈ PianoKeys.generateBlackKeys 3 3
  ∧ ∃ letter o, o < 3
      ∧ "F#4" = (letter +:+ "#") +:+ Number_toString (3 + o)
      ∧ PianoKeys.generateWhiteKeys 3 3 !! 10
        = Some (letter +:+ Number_toString (3 + o)).
Proof.
  assert (PianoKeys.mkBlackKey "F#4" 10 ∈ PianoKeys.generateBlackKeys 3 3)
    as Hin by (vm_compute; repeat constructor).
  split; [exact Hin |].
  exact (PianoKeys_black_on_white 3 3 (PianoKeys.mkBlackKey "F#4" 10) Hin).
Defined.

Lemma bass_pitch_last_char root :
  String.get (String.length (root +:+ "2") - 1) (root +:+ "2")
  = Some "2"%char.
Proof.
  induction root as [| a root IH]; [reflexivity |].
  change (String a root +:+ "2") with (String a (root +:+ "2")).
  change (String.length (String a (root +:+ "2")))
    with (S (String.length (root +:+ "2"))).
  destruct (String.length (root +:+ "2")) as [| m] eqn:Hlen.
  - destruct root; discriminate.
  - replace (S (S m) - 1) with (S m) by lia.
    replace (S m - 1) with m in IH by lia.
    exact IH.
Qed.

(** The bass pitch [handleSelect] stores, a root followed by ["2"], is never
    one of the keys the keyboard draws, whose octaves are 3 to 5: no key is
    ever coloured as the bass of a chosen chord. *)
Theorem bass_pitch_not_on_keyboard root :
  (root +:+ "2" ∉ PianoKeys.whiteKeys)
  ∧ ∀ key, key ∈ PianoKeys.blackKeys → PianoKeys.note key ≠ root +:+ "2".
Proof.
  assert (Forall (λ k, String.get (String.length k - 1) k ≠ Some "2"%char)
            PianoKeys.whiteKeys) as Hwhite.
  { vm_compute. repeat constructor; discriminate. }
  assert (Forall (λ key, String.get (String.length (PianoKeys.note key) - 1)
                           (PianoKeys.note key) ≠ Some "2"%char)
            PianoKeys.blackKeys) as Hblack.
  { vm_compute. repeat constructor; discriminate. }
  rewrite Forall_forall in Hwhite. rewrite Forall_forall in Hblack. split.
  - intros Hin. apply (Hwhite _ Hin). apply bass_pitch_last_char.
  - intros key Hin Heq. apply (Hblack _ Hin). rewrite Heq.
    apply bass_pitch_last_char.
Qed.

Lemma bass_pitch_not_on_keyboard_witness :
  PianoKeys.mkBlackKey "C#3" 0 ∈ PianoKeys.blackKeys
  ∧ "C#3" ≠ "C#" +:+ "2".
Proof.
  assert (PianoKeys.mkBlackKey "C#3" 0 ∈ PianoKeys.blackKeys) as Hin
    by (vm_compute; repeat constructor).
  split; [exact Hin |].
  exact (proj2 (bass_pitch_not_on_keyboard "C#") _ Hin).
Defined.
